(** * Faze: the mutation watcher (Core/Observer) and the chained REST engine
    (components/REST/REST.ts), embedded shallowly.

    The DOM, the transport ([fetch]) and user callbacks are the platform the
    code runs on.  They appear here as explicit inputs: a snapshot of the
    tree that answers [parentNode] and [querySelectorAll], the outcome of a
    transport promise, and for every user function whether a call of it
    throws.  User functions are opaque: a call is recorded in the trace and
    is assumed not to reach back into the state of the engine that called
    it. *)

From Stdlib Require Import ZArith Ascii String DecimalString.
From stdpp Require Import base tactics option list strings gmap.

Open Scope string_scope.
Open Scope list_scope.

Set Warnings "-register-all".

(** ** Core/Observer *)

Module Observer.

(** A DOM node is its reference: two nodes are the same node when the
    references are equal (JavaScript [===] on objects). *)
Definition node := nat.

(** The tree at the moment a batch is delivered.  [querySelectorAll None]
    is [document.querySelectorAll]; [querySelectorAll (Some p)] is
    [p.querySelectorAll]. *)
Record Dom := {
  parentNode : node → option node;
  querySelectorAll : option node → string → list node;
}.

Record MutationRecord := {
  addedNodes : list node;
  removedNodes : list node;
}.

(** interface Listener.  [callback] names the user function. *)
Record Listener := {
  selector : string;
  callback : nat;
  alreadyExistedNodes : list node;
}.

Definition set_nodes (l : Listener) (ns : list node) : Listener :=
  {| selector := selector l; callback := callback l;
     alreadyExistedNodes := ns |}.

Inductive event :=
| Call (cb : nat) (n : node)
| ConsoleError (cb : nat) (n : node).

(** One run of a listener over its input: the listener as it is mutated,
    and the trace so far. *)
Definition st := (Listener * list event)%type.

(** The listener [watch] pushes: its snapshot is the current matches. *)
Definition registered (dom : Dom) (sel : string) (cb : nat) : Listener :=
  {| selector := sel; callback := cb;
     alreadyExistedNodes := querySelectorAll dom None sel |}.

Section Check.

(** Whether the call [callback(node)] throws. *)
Variable throws : nat → node → bool.

(** watch *)
Definition watch (dom : Dom) (sel : string) (cb : nat)
    (listeners : list Listener) : list Listener :=
  listeners ++ [registered dom sel cb].

(** Body of [parentNode.querySelectorAll(...).forEach]. *)
Definition check_inserted (s : st) (insertedElement : node) : st :=
  let '(l, tr) := s in
  if bool_decide (insertedElement ∈ alreadyExistedNodes l) then s
  else
    (set_nodes l (alreadyExistedNodes l ++ [insertedElement]),
     tr ++ Call (callback l) insertedElement ::
           (if throws (callback l) insertedElement
            then [ConsoleError (callback l) insertedElement] else [])).

(** Body of [mutationRecord.addedNodes.forEach]. *)
Definition check_added (dom : Dom) (s : st) (addedNode : node) : st :=
  match parentNode dom addedNode with
  | Some p =>
      foldl check_inserted s (querySelectorAll dom (Some p) (selector (fst s)))
  | None => s
  end.

(** Body of [mutationRecord.removedNodes.forEach]: the inner [forEach]
    walks the array it was started on, while every hit replaces the
    listener's array by a filtered copy. *)
Definition check_removed (s : st) (removedNode : node) : st :=
  let '(l, tr) := s in
  (foldl (λ (l' : Listener) (existedNode : node),
            if bool_decide (existedNode = removedNode)
            then set_nodes l'
                   (filter (λ n, n ≠ existedNode) (alreadyExistedNodes l'))
            else l')
         l (alreadyExistedNodes l),
   tr).

(** Body of [mutationRecords.forEach]. *)
Definition check_record (dom : Dom) (s : st) (r : MutationRecord) : st :=
  foldl check_removed (foldl (check_added dom) s (addedNodes r))
        (removedNodes r).

(** Body of [this.listeners.forEach] for one listener. *)
Definition check_listener (dom : Dom) (records : list MutationRecord)
    (s : st) : st :=
  foldl (check_record dom) s records.

(** check: every listener in turn over the whole batch; the traces of
    the listeners follow each other in listener order. *)
Definition check (dom : Dom) (records : list MutationRecord)
    (listeners : list Listener) : list Listener * list event :=
  foldl (λ (acc : list Listener * list event) (l : Listener),
           let '(l', tr) := check_listener dom records (l, []) in
           (acc.1 ++ [l'], acc.2 ++ tr))
        ([], []) listeners.

(** A batch is delivered together with the tree as it then is. *)
Definition batch := (Dom * list MutationRecord)%type.

Definition check_batches (bs : list batch) (s : st) : st :=
  foldl (λ s' (b : batch), check_listener b.1 b.2 s') s bs.

(** How often the trace calls the callback on node [n]. *)
Definition called (e : event) : option node :=
  match e with Call _ n => Some n | ConsoleError _ _ => None end.

Definition fired (n : node) (tr : list event) : nat :=
  length (filter (λ e, called e = Some n) tr).

End Check.

(** A batch mentions [n] for a selector when one of its added nodes has a
    parent under which [n] matches. *)
Definition mentions (sel : string) (n : node) (b : batch) : Prop :=
  ∃ r a p, r ∈ b.2 ∧ a ∈ addedNodes r ∧ parentNode b.1 a = Some p
           ∧ n ∈ querySelectorAll b.1 (Some p) sel.

(** A batch keeps [n] when none of its records lists it as removed. *)
Definition keeps (n : node) (b : batch) : Prop :=
  Forall (λ r, n ∉ removedNodes r) b.2.

Definition watched (sel : string) (s : st) : Prop := selector s.1 = sel.

(** A page on which the node 4 matches [.w] when the listener is
    registered; then the node 5 is inserted under the node 0; then both
    are moved under the node 9, which the platform reports as a removal
    and an addition each. *)
Definition page0 : Dom :=
  {| parentNode := λ _, None;
     querySelectorAll := λ scope _,
       match scope with None => [4] | Some _ => [] end |}.

Definition page1 : Dom :=
  {| parentNode := λ m, if Nat.eqb m 5 then Some 0 else None;
     querySelectorAll := λ _ _, [4; 5] |}.

Definition page2 : Dom :=
  {| parentNode := λ m, if Nat.eqb m 5 || Nat.eqb m 4 then Some 9 else None;
     querySelectorAll := λ _ _, [5; 4] |}.

Definition inserted : batch :=
  (page1, [ {| addedNodes := [5]; removedNodes := [] |} ]).

Definition moved : batch :=
  (page2, [ {| addedNodes := []; removedNodes := [5] |};
            {| addedNodes := [5]; removedNodes := [] |};
            {| addedNodes := []; removedNodes := [4] |};
            {| addedNodes := [4]; removedNodes := [] |} ]).

Definition known (n : node) (s : st) : Prop := n ∈ alreadyExistedNodes s.1.
Definition count (n : node) (s : st) : nat := fired n s.2.

(** From [s] to [s']: the selector stays; a known node stays known and
    is not called; an unknown one stays unknown and uncalled, or becomes
    known with one call. *)
Definition later (n : node) (s s' : st) : Prop :=
  selector s'.1 = selector s.1
  ∧ (known n s → known n s' ∧ count n s' = count n s)
  ∧ (¬ known n s →
     (¬ known n s' ∧ count n s' = count n s)
     ∨ (known n s' ∧ count n s' = S (count n s))).

End Observer.

(** ** components/REST/REST.ts *)

Module REST.

(** *** JavaScript values

    Steps, payloads and responses are untyped in the source ([any]), so the
    embedding keeps them as values and classifies them the way the code
    does ([typeof], [in], truthiness).  Numbers are integers, printed in
    decimal notation: this is what JavaScript does below 10^21, and larger
    numbers, which it prints with an exponent, are outside the model.
    Strings are sequences of one-byte characters, which is exact for ASCII
    text; a character outside ASCII, one code unit in JavaScript, is more
    than one character here.  An object is the list of its own properties
    in enumeration order. *)
Inductive value :=
| VUndef
| VNull
| VBool (b : bool)
| VNum (z : Z)
| VStr (s : string)
| VFun (f : nat)
| VArr (l : list value)
| VObj (o : list (string * value)).

Definition object := list (string * value).

Definition truthy (v : value) : bool :=
  match v with
  | VUndef | VNull => false
  | VBool b => b
  | VNum z => negb (z =? 0)%Z
  | VStr s => negb (String.eqb s "")
  | VFun _ | VArr _ | VObj _ => true
  end.

(** [a || b] *)
Definition or_else (a b : value) : value := if truthy a then a else b.

Definition is_function (v : value) : bool :=
  match v with VFun _ => true | _ => false end.

(** *** Strings *)

Fixpoint join (sep : string) (l : list string) : string :=
  match l with
  | [] => ""
  | [s] => s
  | s :: l' => s +:+ sep +:+ join sep l'
  end.

(** [s.indexOf(c)] for a one-character needle. *)
Fixpoint indexOf (c : ascii) (s : string) : option nat :=
  match s with
  | EmptyString => None
  | String a s' =>
      if Ascii.eqb a c then Some 0 else S <$> indexOf c s'
  end.

Definition includes (c : ascii) (s : string) : bool :=
  match indexOf c s with
  | Some _ => true
  | None => false
  end.

(** [s.startsWith(p)] *)
Fixpoint startsWith (s p : string) {struct p} : bool :=
  match p with
  | EmptyString => true
  | String b p' =>
      match s with
      | EmptyString => false
      | String a s' => Ascii.eqb a b && startsWith s' p'
      end
  end.

(** [s.substring(from)] *)
Definition substring_from (from : nat) (s : string) : string :=
  String.substring from (String.length s - from) s.

Definition lower_ascii (a : ascii) : ascii :=
  let n := nat_of_ascii a in
  if (65 <=? n)%nat && (n <=? 90)%nat then ascii_of_nat (n + 32) else a.

(** [s.toLowerCase()], on the ASCII letters. *)
Fixpoint toLowerCase (s : string) : string :=
  match s with
  | EmptyString => EmptyString
  | String a s' => String (lower_ascii a) (toLowerCase s')
  end.

(** *** Objects *)

Fixpoint get (o : object) (k : string) : value :=
  match o with
  | [] => VUndef
  | (k', v) :: o' => if String.eqb k' k then v else get o' k
  end.

(** [k in o] for an own property. *)
Fixpoint has (o : object) (k : string) : bool :=
  match o with
  | [] => false
  | (k', _) :: o' => String.eqb k' k || has o' k
  end.

(** The array index a property key denotes, if any: such keys are
    enumerated first, in ascending order. *)
Definition array_index (k : string) : option N :=
  match NilZero.uint_of_string k with
  | Some u =>
      let n := N.of_uint u in
      if String.eqb (NilZero.string_of_uint (N.to_uint n)) k
         && (n <? 4294967295)%N
      then Some n else None
  | None => None
  end.

Fixpoint insert_index (i : N) (k : string) (v : value) (o : object) : object :=
  match o with
  | [] => [(k, v)]
  | (k', v') :: o' =>
      match array_index k' with
      | Some j =>
          if (j <? i)%N then (k', v') :: insert_index i k v o'
          else (k, v) :: o
      | None => (k, v) :: o
      end
  end.

Fixpoint replace (k : string) (v : value) (o : object) : object :=
  match o with
  | [] => []
  | (k', v') :: o' =>
      if String.eqb k' k then (k', v) :: o' else (k', v') :: replace k v o'
  end.

(** [o[k] = v], for a key that names an own property or none: the
    inherited setter of the key [__proto__] is not represented. *)
Definition set (o : object) (k : string) (v : value) : object :=
  if has o k then replace k v o
  else match array_index k with
       | Some i => insert_index i k v o
       | None => o ++ [(k, v)]
       end.

(** [delete o[k]] *)
Definition delete (o : object) (k : string) : object :=
  filter (λ kv, kv.1 ≠ k) o.

Section Values.

(** The source text of a function, which is what it turns into where a
    string is wanted. *)
Variable fn_source : nat → string.

(** ToString *)
Fixpoint to_string (v : value) : string :=
  match v with
  | VUndef => "undefined"
  | VNull => "null"
  | VBool true => "true"
  | VBool false => "false"
  | VNum z => NilZero.string_of_int (Z.to_int z)
  | VStr s => s
  | VFun f => fn_source f
  | VArr l =>
      join ","
        (List.map (λ x, match x with
                        | VUndef | VNull => ""
                        | _ => to_string x
                        end) l)
  | VObj _ => "[object Object]"
  end.

End Values.

(** [JSON.parse(JSON.stringify(v))] on a value tree: inside an array a
    function or [undefined] becomes [null], inside an object such a
    property is left out. *)
Fixpoint json_clone (v : value) : value :=
  match v with
  | VUndef | VFun _ => VNull
  | VArr l => VArr (List.map json_clone l)
  | VObj o =>
      VObj ((fix props (o : object) : object :=
               match o with
               | [] => []
               | (k, x) :: o' =>
                   match x with
                   | VUndef | VFun _ => props o'
                   | _ => (k, json_clone x) :: props o'
                   end
               end) o)
  | _ => v
  end.

(** *** Form data and the query string *)

(** A [FormData] is its entry list; entries are strings. *)
Definition FormData := list (string * string).

Definition fd_append (fd : FormData) (k v : string) : FormData :=
  fd ++ [(k, v)].

(** [formData.delete(name)] drops every entry of that name. *)
Definition fd_delete (fd : FormData) (k : string) : FormData :=
  filter (λ e, e.1 ≠ k) fd.

Definition hex_digit (n : nat) : ascii :=
  nth n (list_ascii_of_string "0123456789ABCDEF") "0"%char.

Definition percent (a : ascii) : string :=
  let n := nat_of_ascii a in
  String "%" (String (hex_digit (n / 16)) (String (hex_digit (n mod 16)) "")).

(** The bytes the application/x-www-form-urlencoded serializer leaves
    alone: ASCII letters and digits and [* - . _]. *)
Definition urlencoded_plain (a : ascii) : bool :=
  let n := nat_of_ascii a in
  ((48 <=? n) && (n <=? 57) || (65 <=? n) && (n <=? 90)
   || (97 <=? n) && (n <=? 122)
   || (n =? 42) || (n =? 45) || (n =? 46) || (n =? 95))%nat.

Fixpoint urlencode (s : string) : string :=
  match s with
  | EmptyString => EmptyString
  | String a s' =>
      (if urlencoded_plain a then String a ""
       else if Ascii.eqb a " " then "+"
       else percent a) +:+ urlencode s'
  end.

(** [(new URLSearchParams(formData)).toString()] *)
Definition URLSearchParams_toString (fd : FormData) : string :=
  join "&" (List.map (λ e, urlencode e.1 +:+ "=" +:+ urlencode e.2) fd).

(** interface FetchOptions *)
Record FetchOptions := {
  method : string;
  body : option FormData;
}.

(** *** The page *)

(** A field carrying [data-faze-restapi-json-name]. *)
Record Field := {
  f_name : string;
  f_value : string;
  f_type : string;
  f_checked : bool;
  f_jsonName : string;
  f_jsonKey : option string;
  f_jsonValue : option string;
}.

(** A form: what [new FormData(form)] yields, the tagged fields and the
    notification regions in document order (each region by the value of
    its [data-faze-restapi-notification]), and the attributes read. *)
Record Form := {
  form_entries : FormData;
  jsonFields : list Field;
  notifications : list string;
  attr_action : option string;
  attr_json_merge : option string;
  attr_restapi_form : option string;
}.

(** An element handed to [dataAttr]. *)
Record Element := {
  el_restapi_attr : option string;
  el_name : string;
  el_nodeName : string;
  el_value : string;
  el_contenteditable : bool;
  el_innerHTML : string;
  el_selected : option string;
  el_has_id : bool;
}.

(** The [data] argument of [request]. *)
Inductive payload :=
| DFormData (fd : FormData)
| DFormElement (form : Form)
| DValue (v : value).

(** *** Effects *)

Inductive error :=
| TypeError
| SyntaxError
| Error (msg : string)
| Thrown (f : nat).

(** The [console.error] sites. *)
Inductive site :=
| RequestTransport
| RequestCallback
| FormMergeParse
| ChainParse
| ChainFinal
| ChainFunction
| ChainString
| ChainFunctionField
| ChainCallback.

Inductive target :=
| DocNode (n : nat)
| Notification (i : nat).

Inductive event :=
| EvCall (f : nat) (args : list value)
| EvConsoleError (s : site)
| EvFetch (url : string) (options : FetchOptions)
| EvInnerHTML (t : target) (content : value)
| EvAssignId
| EvSetTimeout (delay : value).

(** The closures handed to [request] as [callbackSuccess]: a caller's own
    function, the continuation of [chain] (REST.ts:440), and the one of
    [formSubmit] (REST.ts:221). *)
Inductive completion :=
| KUser (callbackSuccess : value)
| KChain (callback : value) (chainData : list value) (finalCallback : value)
| KForm (form : Form) (callback : value).

(** A fetch in flight: what its promise handlers close over. *)
Record inflight := {
  p_dataType : value;
  p_data : payload;
  p_callbackSuccess : completion;
}.

(** A computation of the source: the trace it leaves, the fetches it has
    started, and its result or the exception it throws. *)
Record io (A : Type) := IO {
  trace : list event;
  pending : list inflight;
  result : A + error;
}.
Arguments IO {A}.
Arguments trace {A}.
Arguments pending {A}.
Arguments result {A}.

Definition io_ret {A} (a : A) : io A := IO [] [] (inl a).

Definition io_bind {A B} (f : A → io B) (m : io A) : io B :=
  match result m with
  | inl a =>
      let m' := f a in
      IO (trace m ++ trace m') (pending m ++ pending m') (result m')
  | inr e => IO (trace m) (pending m) (inr e)
  end.

#[export] Instance io_mret : MRet io := @io_ret.
#[export] Instance io_mbind : MBind io := @io_bind.

Definition throw {A} (e : error) : io A := IO [] [] (inr e).
Definition emit (e : event) : io unit := IO [e] [] (inl tt).
Definition start (p : inflight) : io unit := IO [] [p] (inl tt).

(** [try { m } catch (error) { console.error(...) }] *)
Definition try_log (m : io unit) (s : site) : io unit :=
  match result m with
  | inl _ => m
  | inr _ => IO (trace m ++ [EvConsoleError s]) (pending m) (inl tt)
  end.

(** [promise.then(m).catch(h)] for a handler [m] that runs now. *)
Definition catch {A} (m : io A) (h : io A) : io A :=
  match result m with
  | inl _ => m
  | inr _ => IO (trace m ++ trace h) (pending m ++ pending h) (result h)
  end.

(** The user function a trace entry calls. *)
Definition callee (e : event) : option nat :=
  match e with
  | EvCall f _ => Some f
  | _ => None
  end.

(** How often a trace calls the user function [f]. *)
Definition calls (f : nat) (tr : list event) : nat :=
  length (filter (λ e, callee e = Some f) tr).

(** A trace entry that calls no user function. *)
Definition quiet (e : event) : Prop := callee e = None.

(** A computation that starts no fetch and calls no user function. *)
Definition calm {A} (m : io A) : Prop :=
  pending m = [] ∧ Forall quiet (trace m).

(** *** The platform and the helpers *)

(** How a transport promise settles: [fetch] rejects, or it resolves with
    a response of this body. *)
Inductive transport :=
| Rejected
| Resolved (body : string).

(** What the code asks of the browser.  [throws f args] says whether the
    call [f(...args)] of a user function throws; [window] is the global
    namespace; [document_querySelectorAll] is [None] on a selector the
    browser rejects; [fragment_innerHTML text sel] is the [innerHTML] of
    the first match of [sel] in [text] parsed as markup, if there is a
    match. *)
Record Platform := {
  throws : nat → list value → bool;
  fn_source : nat → string;
  window : gmap string value;
  location_href : string;
  location_pathname : string;
  JSON_parse : string → option value;
  JSON_stringify : value → string;
  document_querySelectorAll : string → option (list nat);
  fragment_innerHTML : string → string → option string;
}.

(** [Faze.Helpers], which these sources import but do not contain: the
    two functions [formSubmit] calls are taken as parameters. *)
Record Helpers := {
  objectFromString : value → string → string → string → value;
  mergeDeep : value → value → value;
}.

Section Engine.

Context (P : Platform) (H : Helpers).

Definition str (v : value) : string := to_string (fn_source P) v.

(** [f(...args)] *)
Definition call (f : value) (args : list value) : io unit :=
  match f with
  | VFun n =>
      emit (EvCall n args);;
      if throws P n args then throw (Thrown n) else mret tt
  | _ => throw TypeError
  end.

(** [v[k]] where [v] may be anything. *)
Definition prop (v : value) (k : string) : io value :=
  match v with
  | VUndef | VNull => throw TypeError
  | VObj o => mret (get o k)
  | _ => mret VUndef
  end.

(** [method.toLowerCase()] *)
Definition lower (v : value) : io string :=
  match v with
  | VStr s => mret (toLowerCase s)
  | _ => throw TypeError
  end.

Fixpoint for_each {A} (f : A → io unit) (l : list A) : io unit :=
  match l with
  | [] => mret tt
  | x :: l' => f x;; for_each f l'
  end.

Definition for_each_indexed {A} (f : nat → A → io unit) (l : list A)
    : io unit :=
  for_each (λ ix, f ix.1 ix.2) (imap (λ i x, (i, x)) l).

(** **** REST.request *)

(** [Object.keys(data)] with [formData.append(key, data[key])]. *)
Definition entries_of (v : value) : FormData :=
  match v with
  | VObj o => List.map (λ kv, (kv.1, str kv.2)) o
  | VArr l =>
      imap (λ i x, (NilZero.string_of_uint (Nat.to_uint i), str x)) l
  | VStr s =>
      imap (λ i a, (NilZero.string_of_uint (Nat.to_uint i), String a ""))
           (list_ascii_of_string s)
  | _ => []
  end.

(** The [FormData] filled from [data] (REST.ts:38-50). *)
Definition form_data_of (data : payload) : io FormData :=
  match data with
  | DFormData fd => mret fd
  | DFormElement form => mret (form_entries form)
  | DValue v =>
      if truthy v then mret (entries_of v)
      else throw (Error "data is not an object")
  end.

Definition request (method type : value) (url : string) (data : payload)
    (callbackSuccess : completion) : io unit :=
  m ← lower method;
  let post := String.eqb m "post" in
  let dataType :=
    if truthy type then type else VStr (if post then "json" else "html") in
  let testedMethod := if post then "POST" else "GET" in
  formData ← form_data_of data;
  let fetchOptions :=
    {| method := testedMethod;
       body := if post then Some formData else None |} in
  emit (EvFetch (url +:+ "?" +:+ URLSearchParams_toString formData)
                fetchOptions);;
  start {| p_dataType := dataType; p_data := data;
           p_callbackSuccess := callbackSuccess |}.

(** [data['response_...']] in the promise handler. *)
Definition payload_prop (d : payload) (k : string) : value :=
  match d with
  | DValue (VObj o) => get o k
  | _ => VUndef
  end.

Definition query_all (sel : string) : io (list nat) :=
  match document_querySelectorAll P sel with
  | Some els => mret els
  | None => throw SyntaxError
  end.

(** The response-routing part of the second [then] (REST.ts:71-90). *)
Definition route (data : payload) (response : value) : io unit :=
  match payload_prop data "response_html" with
   | VStr sel =>
       if truthy (VStr sel) then
         els ← query_all sel;
         for_each (λ el,
             match fragment_innerHTML P (str response) sel with
             | Some h => emit (EvInnerHTML (DocNode el) (VStr h))
             | None => throw TypeError
             end) els
       else mret tt
   | _ => mret tt
   end;;
  match payload_prop data "response_text" with
   | VStr sel =>
       if truthy (VStr sel) then
         els ← query_all sel;
         for_each (λ el, emit (EvInnerHTML (DocNode el) response)) els
       else mret tt
   | _ => mret tt
   end;;
  match payload_prop data "response_json" with
   | VStr sel =>
       if truthy (VStr sel) then
         els ← query_all sel;
         for_each (λ el,
             msg ← prop response "message";
             emit (EvInnerHTML (DocNode el) msg)) els
       else mret tt
   | _ => mret tt
   end.

(** **** REST.chain *)

(** The base case: the final callback, guarded (REST.ts:356-362). *)
Definition finish (finalCallback : value) : io unit :=
  if is_function finalCallback
  then try_log (call finalCallback []) ChainFinal
  else mret tt.

(** [functionName in window && typeof window[functionName] === 'function'] *)
Definition global_function (name : string) : option value :=
  match window P !! name with
  | Some (VFun g) => Some (VFun g)
  | _ => None
  end.

(** The target URL for [page] (REST.ts:412, 418). *)
Definition page_url (page : value) : string :=
  if startsWith (str page) "/" then str page
  else "/" +:+ str page +:+ ".txt".

(** The request branch up to the call of [request] (REST.ts:407-437):
    the method, the URL and the object as it is sent. *)
Definition prepare (o : object) : io (value * string * value * object) :=
  let method := get o "method" in
  let '(url, o1) :=
    if truthy (get o "page") && truthy (get o "module")
    then (page_url (get o "page"), set o "show" (get o "module"))
    else if truthy (get o "module")
    then (location_pathname P, set o "show" (get o "module"))
    else if truthy (get o "page")
    then (page_url (get o "page"), o)
    else (location_pathname P, o) in
  m ← lower method;
  let o2 :=
    if String.eqb m "post"
    then set (set (set o1 "update" (get o1 "module"))
                  "from" (VStr (location_href P)))
             "mime" (VStr "json")
    else if negb (has o1 "mime") then set o1 "mime" (VStr "txt")
    else o1 in
  let callback := get o2 "callback" in
  mret (method, url, callback,
        delete (delete (delete (delete o2 "method") "module") "page")
               "callback").

(** [REST.chain] on an array: the recursion of the source, which shifts
    the head off and passes the same array on. *)
Fixpoint chain_array (chainData : list value) (finalCallback : value)
    : io unit :=
  match chainData with
  | [] => finish finalCallback
  | data :: rest =>
      ty ← prop data "type";
      let dataType := or_else ty VNull in
      match data with
      | VFun _ =>
          try_log (call data []) ChainFunction;;
          chain_array rest finalCallback
      | VStr name =>
          match global_function name with
          | Some g => try_log (call g []) ChainString
          | None => throw TypeError
          end
      | VObj o =>
          if has o "function" then
            match global_function (str (get o "function")) with
            | Some g => try_log (call g []) ChainFunctionField
            | None => mret tt
            end;;
            chain_array rest finalCallback
          else if has o "method" then
            '(method, url, callback, o') ← prepare o;
            request method dataType url (DValue (VObj o'))
                    (KChain callback rest finalCallback)
          else throw (Error "method or function is required")
      | VArr _ => throw (Error "method or function is required")
      | _ => throw TypeError
      end
  end.

(** [REST.chain]: the normalisation in front of the recursion. *)
Definition chain (chainRawData : value) (finalCallback : value)
    : io unit :=
  match chainRawData with
  | VArr l => chain_array l finalCallback
  | VStr s =>
      match JSON_parse P s with
      | None => emit (EvConsoleError ChainParse);; throw TypeError
      | Some (VArr l) => chain_array l finalCallback
      | Some (VObj o) =>
          match get o "length" with
          | VNum 0 => finish finalCallback
          | _ => throw TypeError
          end
      | Some _ => throw TypeError
      end
  | _ => mret tt
  end.

(** **** The promise handlers of REST.request *)

(** The notification part of the closure of [formSubmit]
    (REST.ts:227-233). *)
Definition notify (form : Form) (response : value) : io unit :=
  for_each_indexed (λ i mode,
      if String.eqb mode "response_json" then
        msg ← prop response "message";
        emit (EvInnerHTML (Notification i) msg)
      else emit (EvInnerHTML (Notification i) response))
    (notifications form).

(** The step's own callback, guarded (REST.ts:441-447). *)
Definition local_callback (callback response : value) : io unit :=
  if is_function callback
  then try_log (call callback [response]) ChainCallback
  else mret tt.

(** [callbackSuccess(response)] for each of the three closures. *)
Definition run_completion (k : completion) (response : value)
    : io unit :=
  match k with
  | KUser f => call f [response]
  | KChain callback chainData finalCallback =>
      local_callback callback response;;
      chain_array chainData finalCallback
  | KForm form callback =>
      match attr_restapi_form form with
      | Some s =>
          chain (if String.eqb s "" then VNull else VStr s) callback
      | None => mret tt
      end;;
      notify form response
  end.

(** [typeof callbackSuccess === 'function'] *)
Definition completion_is_function (k : completion) : bool :=
  match k with
  | KUser f => is_function f
  | KChain _ _ _ | KForm _ _ => true
  end.

(** REST.ts:93-99 and 105-111. *)
Definition invoke (k : completion) (response : value) : io unit :=
  if completion_is_function k
  then try_log (run_completion k response) RequestCallback
  else mret tt.

(** The [catch] handler (REST.ts:101-112). *)
Definition on_rejected (k : completion) : io unit :=
  emit (EvConsoleError RequestTransport);;
  invoke k VNull.

(** [dataType === 'json' ? response.json() : response.text()]: the
    promise of the body, which rejects on text that is not JSON. *)
Definition read_body (dataType : value) (body : string) : option value :=
  match dataType with
  | VStr s => if String.eqb s "json" then JSON_parse P body
              else Some (VStr body)
  | _ => Some (VStr body)
  end.

(** What runs when the promise of a fetch settles. *)
Definition settle (p : inflight) (t : transport) : io unit :=
  match t with
  | Rejected => on_rejected (p_callbackSuccess p)
  | Resolved body =>
      match read_body (p_dataType p) body with
      | None => on_rejected (p_callbackSuccess p)
      | Some response =>
          catch (route (p_data p) response;;
                 invoke (p_callbackSuccess p) response)
                (on_rejected (p_callbackSuccess p))
      end
  end.

(** What the promise handlers do before they call the completion, and the
    value they call it with: the response, or [null] after a failure. *)
Definition received (dataType : value) (data : payload) (t : transport)
    : list event * value :=
  match t with
  | Rejected => ([EvConsoleError RequestTransport], VNull)
  | Resolved body =>
      match read_body dataType body with
      | None => ([EvConsoleError RequestTransport], VNull)
      | Some response =>
          match result (route data response) with
          | inl _ => (trace (route data response), response)
          | inr _ => (trace (route data response)
                        ++ [EvConsoleError RequestTransport], VNull)
          end
      end
  end.

(** A call made from a promise handler runs under the handler's
    [try]/[catch]; one made by the page does not. *)
Definition guard (async : bool) (m : io unit) : io unit :=
  if async then try_log m RequestCallback else m.

(** The run loop: the fetches in flight settle in the order they were
    started, the n-th with the n-th outcome; what is still in flight
    when the outcomes run out stays suspended. *)
Fixpoint drive (ts : list transport) (ps : list inflight) : list event :=
  match ts, ps with
  | t :: ts', p :: ps' =>
      let m := settle p t in
      trace m ++ drive ts' (ps' ++ pending m)
  | _, _ => []
  end.

(** The whole trace of a call and of everything it started. *)
Definition run {A} (ts : list transport) (m : io A) : list event :=
  trace m ++ drive ts (pending m).

(** **** REST.formSubmit *)

(** The object name of a path: what stands in front of the first dot
    (REST.ts:145). *)
Definition object_name (inputDataName : string) : string :=
  match indexOf "." inputDataName with
  | Some i => String.substring 0 i inputDataName
  | None => inputDataName
  end.

(** [[...new Set(l)]]: first occurrences, in order. *)
Fixpoint unique (seen l : list string) : list string :=
  match l with
  | [] => []
  | x :: l' =>
      if bool_decide (x ∈ seen) then unique seen l'
      else x :: unique (x :: seen) l'
  end.

Definition jsonNames (form : Form) : list string :=
  unique [] (List.map (λ item, object_name (f_jsonName item))
                      (jsonFields form)).

(** The filter of REST.ts:153-158. *)
Definition json_filter (jsonName : string) (inputNode : Field) : bool :=
  let attrJsonName := f_jsonName inputNode in
  if includes "." attrJsonName
  then startsWith attrJsonName (jsonName +:+ ".")
  else startsWith attrJsonName jsonName.

Definition isCheckboxOrRadio (itemNode : Field) : bool :=
  String.eqb (f_type itemNode) "radio"
  || String.eqb (f_type itemNode) "checkbox".

(** [a || b] on an attribute that may be absent. *)
Definition attr_or (a : option string) (b : string) : string :=
  match a with
  | Some s => if String.eqb s "" then b else s
  | None => b
  end.

(** The condition of REST.ts:165. *)
Definition selected (itemNode : Field) : bool :=
  negb (isCheckboxOrRadio itemNode)
  || (isCheckboxOrRadio itemNode && f_checked itemNode).

(** REST.ts:168-178: the field merged into the object. *)
Definition put (jsonObject : value) (itemNode : Field) : value :=
  let jsonNameForObject :=
    match indexOf "." (f_jsonName itemNode) with
    | Some i => substring_from (i + 1) (f_jsonName itemNode)
    | None => ""
    end in
  let key := attr_or (f_jsonKey itemNode) (f_name itemNode) in
  let value := attr_or (f_jsonValue itemNode) (f_value itemNode) in
  objectFromString H jsonObject jsonNameForObject key value.

(** Body of [inputsNodes.forEach] (REST.ts:160-185). *)
Definition collect (s : value * FormData) (itemNode : Field)
    : value * FormData :=
  let '(jsonObject, formData) := s in
  (if selected itemNode then put jsonObject itemNode else jsonObject,
   fd_delete formData (f_name itemNode)).

(** The object of one name and the form data after its fields were
    taken out (REST.ts:150-185). *)
Definition collect_all (form : Form) (formData : FormData)
    (jsonName : string) : value * FormData :=
  foldl collect (VObj [], formData)
        (filter (λ inputNode, json_filter jsonName inputNode = true)
                (jsonFields form)).

(** Body of the loop over [jsonNames] (REST.ts:149-206). *)
Definition assemble (form : Form) (formData : FormData)
    (jsonName : string) : io FormData :=
  let '(jsonObject, formData') := collect_all form formData jsonName in
  let jsonRealName := object_name jsonName in
  jsonObject' ←
    match attr_json_merge form with
    | Some jsonData =>
        objectToMerge ←
          match JSON_parse P jsonData with
          | Some v => mret v
          | None => emit (EvConsoleError FormMergeParse);; mret VNull
          end;
        mret (mergeDeep H objectToMerge jsonObject)
    | None => mret jsonObject
    end;
  mret (fd_append formData' jsonRealName (JSON_stringify P jsonObject')).

Fixpoint assemble_all (form : Form) (formData : FormData)
    (names : list string) : io FormData :=
  match names with
  | [] => mret formData
  | jsonName :: names' =>
      formData' ← assemble form formData jsonName;
      assemble_all form formData' names'
  end.

(** REST.ts:212-218. *)
Definition typeForResponse (form : Form) : string :=
  match notifications form with
  | mode :: _ => if String.eqb mode "response_json" then "json" else "text"
  | [] => "text"
  end.

(** [formNode] is [None] for an argument that is not a form. *)
Definition formSubmit (formNode : option Form) (callback : value)
    : io unit :=
  match formNode with
  | None => throw (Error "not a form")
  | Some form =>
      formData ← assemble_all form (form_entries form) (jsonNames form);
      let url := attr_or (attr_action form) (location_href P) in
      request (VStr "POST") (VStr (typeForResponse form)) url
              (DFormData (fd_append formData "from" (location_href P)))
              (KForm form callback)
  end.

(** **** REST.getElementValue and REST.dataAttr *)

Definition getElementValue (element : Element) : io string :=
  if String.eqb (el_nodeName element) "INPUT" then mret (el_value element)
  else if el_contenteditable element then mret (el_innerHTML element)
  else if String.eqb (el_nodeName element) "SELECT" then
    match el_selected element with
    | Some v => mret v
    | None => throw TypeError
    end
  else mret "".

(** [element && element.name] *)
Definition named (element : option Element) : option Element :=
  match element with
  | Some e => if String.eqb (el_name e) "" then None else Some e
  | None => None
  end.

(** The value read off the element, or [null]. *)
Definition element_value (element : option Element) : io value :=
  match named element with
  | Some e => v ← getElementValue e; mret (VStr v)
  | None => mret VNull
  end.

(** [chain[0][name] = v] in strict code.  A named property put on an
    array or a function is not represented: such a head is left as it
    is. *)
Definition assign_head (chain : list value) (name : string) (v : value)
    : io (list value) :=
  match chain with
  | VObj o :: rest => mret (VObj (set o name v) :: rest)
  | VArr l :: rest => mret (VArr l :: rest)
  | VFun f :: rest => mret (VFun f :: rest)
  | _ => throw TypeError
  end.

Definition seed (chain : list value) (element : option Element)
    (v : value) : io (list value) :=
  match named element with
  | Some e => assign_head chain (el_name e) v
  | None => mret chain
  end.

Inductive dataAttr_arg :=
| AnElement (e : Element)
| AValue (v : value).

(** What [setTimeout] was given (REST.ts:314-320). *)
Record timer := {
  t_chain : list value;
  t_finalCallback : value;
  t_delay : value;
}.

(** The result is the timer the call has set, if it has set one. *)
Definition dataAttr (object : dataAttr_arg) (finalCallback : value)
    : io (option timer) :=
  '(element, json) ←
    match object with
    | AnElement e =>
        match el_restapi_attr e with
        | None => throw (Error "no data-faze-restapi attribute")
        | Some a =>
            match JSON_parse P a with
            | Some v => mret (Some e, v)
            | None => throw (Error "JSON config does not parse")
            end
        end
    | AValue (VArr l) => mret (None, json_clone (VArr l))
    | AValue VUndef | AValue VNull => throw TypeError
    | AValue _ => throw (Error "neither an element nor an array")
    end;
  chain ← match json with
          | VArr l => mret l
          | VNull => throw TypeError
          | _ => throw (Error "JSON is not an array")
          end;
  match chain with
  | [] => mret None
  | first :: _ =>
      currentValue ← element_value element;
      delay ← prop first "delay";
      if truthy delay then
        match element with
        | None => throw TypeError
        | Some e =>
            (if el_has_id e then mret tt else emit EvAssignId);;
            emit (EvSetTimeout delay);;
            mret (Some {| t_chain := chain;
                          t_finalCallback := finalCallback;
                          t_delay := delay |})
        end
      else
        chain' ← seed chain element currentValue;
        chain_array chain' finalCallback;;
        mret None
  end.

(** The timer callback, on the element as it is when the timer fires. *)
Definition fire (t : timer) (element : Element) : io unit :=
  newValue ← element_value (Some element);
  chain' ← seed (t_chain t) (Some element) newValue;
  chain_array chain' (t_finalCallback t).

End Engine.

(** **** Steps behind which the chain goes on *)



(** **** A page to run the code on *)

(** A browser whose global namespace holds the one function [test], where
    no user function throws and no selector matches. *)
Definition browser : Platform :=
  {| throws := λ _ _, false;
     fn_source := λ _, "function () {}";
     window := {[ "test" := VFun 7 ]};
     location_href := "http://faze/page";
     location_pathname := "/page";
     JSON_parse := λ _, None;
     JSON_stringify := λ _, "{}";
     document_querySelectorAll := λ _, Some [];
     fragment_innerHTML := λ _ _, None |}.

(** Helpers that leave the object as it is, for forms without tagged
    fields. *)
Definition idle : Helpers :=
  {| objectFromString := λ o _ _ _, o; mergeDeep := λ _ o, o |}.

(** A form whose notification region says [json], the value the comment
    above [formSubmit] documents. *)
Definition notice_form : Form :=
  {| form_entries := [("q", "1")];
     jsonFields := [];
     notifications := ["json"];
     attr_action := Some "/send";
     attr_json_merge := None;
     attr_restapi_form := None |}.

(** A request step: a GET of the current page with a callback of its
    own, the function 3. *)
Definition ping : object :=
  [("method", VStr "GET"); ("callback", VFun 3)].

(** A form with the paths [user.name] and [userx]. *)
Definition user_name : Field :=
  {| f_name := "n"; f_value := "max"; f_type := "text"; f_checked := false;
     f_jsonName := "user.name"; f_jsonKey := None; f_jsonValue := None |}.

Definition userx : Field :=
  {| f_name := "x"; f_value := "1"; f_type := "text"; f_checked := false;
     f_jsonName := "userx"; f_jsonKey := None; f_jsonValue := None |}.

Definition signup : Form :=
  {| form_entries := [("n", "max"); ("x", "1")];
     jsonFields := [user_name; userx];
     notifications := [];
     attr_action := None;
     attr_json_merge := None;
     attr_restapi_form := None |}.


(** **** The object builder *)












(** The page [browser] with a parser of its own. *)
Definition parsing (parse : string → option value) : Platform :=
  {| throws := throws browser;
     fn_source := fn_source browser;
     window := window browser;
     location_href := location_href browser;
     location_pathname := location_pathname browser;
     JSON_parse := parse;
     JSON_stringify := JSON_stringify browser;
     document_querySelectorAll := document_querySelectorAll browser;
     fragment_innerHTML := fragment_innerHTML browser |}.

(** A search input that carries a chain in its attribute. *)
Definition search : Element :=
  {| el_restapi_attr := Some "steps";
     el_name := "q";
     el_nodeName := "INPUT";
     el_value := "tea";
     el_contenteditable := false;
     el_innerHTML := "";
     el_selected := None;
     el_has_id := false |}.

(** A form with a text region in front of a json region. *)
Definition two_regions : Form :=
  {| form_entries := [("q", "1")];
     jsonFields := [];
     notifications := ["text"; "response_json"];
     attr_action := None;
     attr_json_merge := None;
     attr_restapi_form := None |}.

End REST.

(** ** Tooltip.hotInitialize, a caller of the watcher *)

Module Tooltip.

Import Observer.

(** The selector of the plugin, [[data-faze~="tooltip"]]. *)
Definition quote : string := String (ascii_of_nat 34) "".

Definition selector : string :=
  "[data-faze~=" +:+ quote +:+ "tooltip" +:+ quote +:+ "]".

Section HotInitialize.

(** Whether a call of the initializer throws; [init] names
    [Tooltip.initializeByDataAttributes]. *)
Variable throws : nat → node → bool.
Variable init : nat.

(** The loop over the nodes on the page: it has no guard, so the first
    call that throws ends it.  The flag says whether it ran to its end. *)
Fixpoint initialize_all (nodes : list node) : list event * bool :=
  match nodes with
  | [] => ([], true)
  | n :: nodes' =>
      if throws init n then ([Call init n], false)
      else (Call init n :: (initialize_all nodes').1,
            (initialize_all nodes').2)
  end.

(** hotInitialize: register with the watcher, then initialize what is on
    the page. *)
Definition hotInitialize (dom : Dom) (listeners : list Listener)
    : list Listener * (list event * bool) :=
  (watch dom selector init listeners,
   initialize_all (querySelectorAll dom None selector)).

End HotInitialize.

End Tooltip.

(** ** components/Select/Select.ts *)

Module Select.

(** An option of the select: the attributes read and the style written. *)
Record Option := {
  data_caption : option string;
  data_value : option string;
  textContent : string;
  display : string;
}.

(** The select: the classes of its node that the code reads and writes,
    the text of its title, the chosen value ([None] while nothing was
    chosen) and its options. *)
Record Select := {
  active : bool;
  disabled : bool;
  title : string;
  value : option string;
  options : list Option;
}.

Inductive event :=
| Changed (title : string) (value : string)
| ConsoleError.

(** [option.getAttribute('data-value') || option.textContent] *)
Definition optionValue (o : Option) : string :=
  REST.attr_or (data_value o) (textContent o).

Definition show (o : Option) (d : string) : Option :=
  {| data_caption := data_caption o; data_value := data_value o;
     textContent := textContent o; display := d |}.

(** hideOption *)
Definition hideOption (v : option string) (os : list Option) : list Option :=
  List.map (λ o, if bool_decide (Some (optionValue o) = v)
                 then show o "none" else show o "block") os.

Section Handlers.

(** Whether the [changed] callback is a function, and whether a call of
    it throws. *)
Variable has_changed : bool.
Variable throws : string → string → bool.

(** The click handler of the title (Select.ts:152-158). *)
Definition click_title (s : Select) : Select :=
  if disabled s then s
  else {| active := negb (active s); disabled := disabled s;
          title := title s; value := value s; options := options s |}.

(** The click handler of the option [i] (Select.ts:163-192). *)
Definition click_option (i : nat) (s : Select) : Select * list event :=
  match options s !! i with
  | None => (s, [])
  | Some o =>
      let t := REST.attr_or (data_caption o) (textContent o) in
      let v := optionValue o in
      ({| active := false; disabled := disabled s; title := t;
          value := Some v; options := hideOption (Some v) (options s) |},
       if has_changed
       then Changed t v :: if throws t v then [ConsoleError] else []
       else [])
  end.

(** The click handler of the document (Select.ts:196-203): [path] is the
    event path if the browser gives one, as whether the select is on it. *)
Definition click_document (path : option bool) (s : Select) : Select :=
  match path with
  | Some false =>
      {| active := false; disabled := disabled s; title := title s;
         value := value s; options := options s |}
  | _ => s
  end.

End Handlers.

(** A select with two colours, nothing chosen. *)
Definition colours : Select :=
  {| active := true; disabled := false; title := "Colour"; value := None;
     options :=
       [ {| data_caption := None; data_value := Some "r";
            textContent := "Red"; display := "block" |};
         {| data_caption := None; data_value := None;
            textContent := "Blue"; display := "block" |} ] |}.

End Select.

(** * Properties of the mutation watcher *)

Section ObserverFacts.

Import Observer.

Variable throws : nat → node → bool.

(** A step that only reads and extends: it relates a state to a later
    one through a preorder. *)
Lemma foldl_preorder {S B} (R : S → S → Prop) (f : S → B → S) (l : list B) :
  (∀ s, R s s) →
  (∀ s1 s2 s3, R s1 s2 → R s2 s3 → R s1 s3) →
  (∀ s x, x ∈ l → R s (f s x)) →
  ∀ s, R s (foldl f s l).
Proof.
  intros Hrefl Htrans. induction l as [|x l IH]; intros Hstep s; simpl.
  - apply Hrefl.
  - eapply Htrans.
    + apply (Hstep s x). left.
    + apply IH. intros s' y Hy. apply Hstep. by right.
Qed.

Lemma foldl_keep {S B} (Q : S → Prop) (f : S → B → S) (l : list B) :
  (∀ s y, y ∈ l → Q s → Q (f s y)) →
  ∀ s, Q s → Q (foldl f s l).
Proof.
  induction l as [|y l IH]; intros Hkeep s Hs; simpl; [done|].
  apply IH.
  - intros s' z Hz. apply Hkeep. by right.
  - apply Hkeep; [left|done].
Qed.

(** Something a step establishes, and no later step undoes, holds at the
    end; [I] is what every step may rely on. *)
Lemma foldl_reach {S B} (I Q : S → Prop) (f : S → B → S) (l : list B) x :
  x ∈ l →
  (∀ s y, y ∈ l → I s → I (f s y)) →
  (∀ s, I s → Q (f s x)) →
  (∀ s y, y ∈ l → I s → Q s → Q (f s y)) →
  ∀ s, I s → Q (foldl f s l).
Proof.
  intros Hx Hinv Hset Hkeep s Hs.
  apply list_elem_of_split in Hx as (l1 & l2 & ->).
  rewrite foldl_app. simpl.
  assert (HI1 : I (foldl f s l1)).
  { apply (foldl_keep I); [|done].
    intros s' y Hy. apply Hinv. apply elem_of_app. by left. }
  assert (HIx : I (f (foldl f s l1) x)).
  { apply Hinv; [|done]. apply elem_of_app. right. left. }
  assert (HIQ : I (foldl f (f (foldl f s l1) x) l2)
                ∧ Q (foldl f (f (foldl f s l1) x) l2)).
  { apply (foldl_keep (λ s', I s' ∧ Q s')).
    - intros s' y Hy [HI HQ].
      assert (Hy' : y ∈ l1 ++ x :: l2).
      { apply elem_of_app. right. by right. }
      split; [by apply Hinv|by apply Hkeep].
    - split; [done|by apply Hset]. }
  apply HIQ.
Qed.

Section OneNode.

Variable n : node.

Lemma later_refl s : later n s s.
Proof. unfold later. naive_solver. Qed.

Lemma later_trans s1 s2 s3 : later n s1 s2 → later n s2 s3 → later n s1 s3.
Proof.
  unfold later. intros (Hs1 & Hk1 & Hu1) (Hs2 & Hk2 & Hu2).
  split; [congruence|]. split.
  - intros Hk. destruct (Hk1 Hk) as [Hk' Hc'].
    destruct (Hk2 Hk') as [Hk'' Hc'']. split; [done|congruence].
  - intros Hu. destruct (Hu1 Hu) as [[Hu' Hc']|[Hk' Hc']].
    + destruct (Hu2 Hu') as [[Hu'' Hc'']|[Hk'' Hc'']].
      * left. split; [done|congruence].
      * right. split; [done|congruence].
    + destruct (Hk2 Hk') as [Hk'' Hc'']. right. split; [done|congruence].
Qed.

Lemma fired_app tr1 tr2 : fired n (tr1 ++ tr2) = fired n tr1 + fired n tr2.
Proof. unfold fired. by rewrite filter_app, length_app. Qed.

Lemma fired_call cb x (b : bool) :
  fired n (Call cb x :: (if b then [ConsoleError cb x] else []))
  = if decide (x = n) then 1 else 0.
Proof.
  unfold fired. rewrite filter_cons. simpl.
  assert (Hnil : filter (λ e, called e = Some n)
                   (if b then [ConsoleError cb x] else []) = []).
  { destruct b; [|done]. rewrite filter_cons. simpl.
    by destruct (decide (None = Some n)). }
  rewrite Hnil.
  destruct (decide (Some x = Some n)) as [Heq|Hne];
    destruct (decide (x = n)) as [Hx|Hx]; simpl; try done.
  - congruence.
  - congruence.
Qed.

Lemma check_inserted_later s x : later n s (check_inserted throws s x).
Proof.
  destruct s as [l tr]. unfold check_inserted.
  case_bool_decide as Hin; [apply later_refl|].
  unfold later, known, count. simpl. split; [done|].
  rewrite fired_app, fired_call. split.
  - intros Hk. split; [apply elem_of_app; by left|].
    destruct (decide (x = n)) as [->|]; [done|lia].
  - intros Hu. destruct (decide (x = n)) as [->|Hne].
    + right. split; [|lia]. apply elem_of_app. right. by left.
    + left. split; [|lia]. intros Hk. apply elem_of_app in Hk as [Hk|Hk].
      * done.
      * apply list_elem_of_singleton in Hk. congruence.
Qed.

Lemma check_inserted_known s : known n (check_inserted throws s n).
Proof.
  destruct s as [l tr]. unfold check_inserted, known.
  case_bool_decide as Hin; simpl; [done|].
  apply elem_of_app. right. by left.
Qed.

Lemma foldl_check_inserted_later s l :
  later n s (foldl (check_inserted throws) s l).
Proof.
  apply foldl_preorder; auto using later_refl, check_inserted_later.
  apply later_trans.
Qed.

Lemma check_added_later dom s a : later n s (check_added throws dom s a).
Proof.
  unfold check_added. destruct (parentNode dom a); [|apply later_refl].
  apply foldl_check_inserted_later.
Qed.

Lemma later_selector s s' : later n s s' → selector s'.1 = selector s.1.
Proof. by intros (Hsel & _). Qed.

Lemma later_known s s' : later n s s' → known n s → known n s'.
Proof. intros (_ & Hk & _) Hs. by apply Hk. Qed.

Lemma check_added_known dom s a p :
  parentNode dom a = Some p →
  n ∈ querySelectorAll dom (Some p) (selector s.1) →
  known n (check_added throws dom s a).
Proof.
  intros Hp Hn. unfold check_added. rewrite Hp.
  apply (foldl_reach (λ _, True) (known n)) with (x := n); try done.
  - intros s' _. apply check_inserted_known.
  - intros s' y _ _. apply later_known, check_inserted_later.
Qed.

(** The inner loop of the removal only filters other nodes out. *)
Lemma removal_keeps (removedNode : node) (walked : list node) (l : Listener) :
  n ≠ removedNode →
  let l' := foldl (λ (l' : Listener) (existedNode : node),
                     if bool_decide (existedNode = removedNode)
                     then set_nodes l'
                            (filter (λ m, m ≠ existedNode)
                                    (alreadyExistedNodes l'))
                     else l') l walked in
  selector l' = selector l
  ∧ (n ∈ alreadyExistedNodes l' ↔ n ∈ alreadyExistedNodes l).
Proof.
  intros Hne. revert l. induction walked as [|e walked IH]; intros l; simpl.
  - done.
  - case_bool_decide as He.
    + destruct (IH (set_nodes l (filter (λ m, m ≠ e) (alreadyExistedNodes l))))
        as [Hsel Hmem].
      split; [by rewrite Hsel|]. rewrite Hmem. simpl.
      rewrite list_elem_of_filter. subst e. tauto.
    + apply IH.
Qed.

Lemma check_removed_later s removedNode :
  n ≠ removedNode → later n s (check_removed s removedNode).
Proof.
  intros Hne. destruct s as [l tr]. unfold check_removed.
  destruct (removal_keeps removedNode (alreadyExistedNodes l) l Hne)
    as [Hsel Hmem].
  unfold later, known, count. simpl.
  split; [done|]. split.
  - intros Hk. split; [by apply Hmem|done].
  - intros Hu. left. split; [|done]. intros Hk. by apply Hu, Hmem.
Qed.

Lemma check_record_later dom s r :
  n ∉ removedNodes r → later n s (check_record throws dom s r).
Proof.
  intros Hr. unfold check_record.
  apply later_trans with (foldl (check_added throws dom) s (addedNodes r)).
  - apply (foldl_preorder (later n)); auto using later_refl, check_added_later.
    apply later_trans.
  - apply (foldl_preorder (later n)); auto using later_refl.
    + apply later_trans.
    + intros s' x Hx. apply check_removed_later. intros ->. done.
Qed.

Lemma check_listener_later dom records s :
  (∀ r, r ∈ records → n ∉ removedNodes r) →
  later n s (check_listener throws dom records s).
Proof.
  intros Hr. unfold check_listener.
  apply (foldl_preorder (later n)); auto using later_refl.
  - apply later_trans.
  - intros s' r Hin. apply check_record_later. by apply Hr.
Qed.

Lemma check_batches_later bs s :
  Forall (keeps n) bs →
  later n s (check_batches throws bs s).
Proof.
  intros Hr. unfold check_batches.
  apply (foldl_preorder (later n)); auto using later_refl.
  - apply later_trans.
  - intros s' b Hin. apply check_listener_later.
    intros r Hrin. rewrite Forall_forall in Hr.
    specialize (Hr b Hin). unfold keeps in Hr.
    rewrite Forall_forall in Hr. by apply Hr.
Qed.

Lemma check_record_known sel dom s r a p :
  watched sel s →
  a ∈ addedNodes r → parentNode dom a = Some p →
  n ∈ querySelectorAll dom (Some p) sel →
  n ∉ removedNodes r →
  known n (check_record throws dom s r).
Proof.
  intros Hsel Ha Hp Hn Hr. unfold check_record.
  apply (foldl_keep (known n)).
  - intros s' x Hx. apply later_known, check_removed_later.
    intros ->. done.
  - apply (foldl_reach (watched sel) (known n)) with (x := a); try done.
    + intros s' y _ Hs'. unfold watched.
      by rewrite (later_selector _ _ (check_added_later dom s' y)).
    + intros s' Hs'. apply (check_added_known dom s' a p); [done|].
      by rewrite Hs'.
    + intros s' y _ _. apply later_known, check_added_later.
Qed.

Lemma check_listener_known sel dom records s :
  watched sel s →
  mentions sel n (dom, records) →
  (∀ r, r ∈ records → n ∉ removedNodes r) →
  known n (check_listener throws dom records s).
Proof.
  intros Hsel (r & a & p & Hr & Ha & Hp & Hn) Hrem. simpl in *.
  unfold check_listener.
  apply (foldl_reach (watched sel) (known n)) with (x := r); try done.
  - intros s' y Hy Hs'. unfold watched.
    rewrite (later_selector _ _ (check_record_later dom s' y (Hrem y Hy))).
    done.
  - intros s' Hs'. apply (check_record_known sel dom s' r a p); auto.
  - intros s' y Hy _. apply later_known, check_record_later. auto.
Qed.

Lemma check_batches_known sel bs s :
  watched sel s →
  Exists (mentions sel n) bs →
  Forall (keeps n) bs →
  known n (check_batches throws bs s).
Proof.
  intros Hsel Hex Hrem. apply Exists_exists in Hex as (b & Hb & Hm).
  unfold check_batches.
  assert (Hno : ∀ b' r, b' ∈ bs → r ∈ b'.2 → n ∉ removedNodes r).
  { intros b' r Hb' Hr. rewrite Forall_forall in Hrem.
    specialize (Hrem b' Hb'). unfold keeps in Hrem.
    rewrite Forall_forall in Hrem. by apply Hrem. }
  apply (foldl_reach (watched sel) (known n)) with (x := b); try done.
  - intros s' y Hy Hs'. unfold watched.
    rewrite (later_selector _ _
               (check_listener_later y.1 y.2 s' (λ r, Hno y r Hy))).
    done.
  - intros s' Hs'. destruct b as [dom records].
    apply (check_listener_known sel); auto.
    intros r Hr. by apply (Hno (dom, records)).
  - intros s' y Hy _. apply later_known, check_listener_later.
    intros r. by apply Hno.
Qed.

End OneNode.

(** [check] runs every listener over the batch on its own: the listeners
    it leaves and the trace are those of [check_listener], one listener
    after the other. *)
Lemma check_each dom records listeners :
  check throws dom records listeners
  = ((λ l, (check_listener throws dom records (l, [])).1) <$> listeners,
     concat ((λ l, (check_listener throws dom records (l, [])).2)
               <$> listeners)).
Proof.
  unfold check.
  assert (Hgen : ∀ ls acc,
    foldl (λ (acc : list Listener * list event) (l : Listener),
             let '(l', tr) := check_listener throws dom records (l, []) in
             (acc.1 ++ [l'], acc.2 ++ tr)) acc ls
    = (acc.1 ++ ((λ l, (check_listener throws dom records (l, [])).1) <$> ls),
       acc.2 ++ concat ((λ l, (check_listener throws dom records (l, [])).2)
                          <$> ls))).
  { induction ls as [|l ls IH]; intros [a1 a2]; simpl.
    - by rewrite !app_nil_r.
    - rewrite IH.
      destruct (check_listener throws dom records (l, [])) as [l' tr].
      simpl. by rewrite <- !app_assoc. }
  by rewrite Hgen.
Qed.

(** C1, as the code has it.  Take the listener [watch] registers and any
    sequence of batches none of whose records lists the node [n] as
    removed.  If [n] matched the selector at registration, the callback is
    never called on it; in any case it is called on [n] at most once; and
    if [n] did not match at registration and some batch mentions it (an
    added node under whose parent [n] matches), it is called exactly once,
    however many batches mention it. *)
Theorem watch_fires_once_until_removed
    (dom0 : Dom) (sel : string) (cb : nat) (bs : list batch) (n : node) :
  Forall (keeps n) bs →
  let tr := (check_batches throws bs (registered dom0 sel cb, [])).2 in
  (n ∈ querySelectorAll dom0 None sel → fired n tr = 0)
  ∧ (fired n tr ≤ 1)%nat
  ∧ (n ∉ querySelectorAll dom0 None sel →
     Exists (mentions sel n) bs → fired n tr = 1).
Proof.
  intros Hkeep tr.
  pose proof (check_batches_later n bs (registered dom0 sel cb, []) Hkeep)
    as (_ & Hk & Hu).
  unfold Observer.known, Observer.count in Hk, Hu. simpl in Hk, Hu.
  fold tr in Hk, Hu.
  split; [|split].
  - intros Hin. by destruct (Hk Hin).
  - destruct (decide (n ∈ querySelectorAll dom0 None sel)) as [Hin|Hout].
    + destruct (Hk Hin) as [_ ->]. unfold fired. simpl. lia.
    + destruct (Hu Hout) as [[_ ->]|[_ ->]]; unfold fired; simpl; lia.
  - intros Hout Hex.
    pose proof (check_batches_known n sel bs (registered dom0 sel cb, [])
                  eq_refl Hex Hkeep) as Hend.
    destruct (Hu Hout) as [[Hnot _]|[_ ->]]; [done|].
    by unfold fired.
Qed.

End ObserverFacts.

(** C1 at two batches that both mention the inserted node 5. *)
Lemma watch_fires_once_until_removed_witness :
  Forall (Observer.keeps 5) [Observer.inserted; Observer.inserted]
  ∧ (Observer.fired 5
      (Observer.check_batches (λ _ _, true)
         [Observer.inserted; Observer.inserted]
         (Observer.registered Observer.page0 ".w" 1, [])).2 ≤ 1)%nat.
Proof.
  assert (Hkeep : Forall (Observer.keeps 5)
                         [Observer.inserted; Observer.inserted]).
  { repeat constructor; simpl; intros Hin; inversion Hin. }
  split; [exact Hkeep|].
  exact (proj1 (proj2 (watch_fires_once_until_removed (λ _ _, true)
                         Observer.page0 ".w" 1
                         [Observer.inserted; Observer.inserted] 5 Hkeep))).
Defined.

(** C1 as stated fails: the eviction on removal forgets a node, so the
    node 5, inserted after registration and then moved, is called twice, and
    the node 4, which matched at registration, is called once it is
    moved. *)
Lemma watch_fires_again_after_removal :
  let tr := (Observer.check_batches (λ _ _, false)
               [Observer.inserted; Observer.moved]
               (Observer.registered Observer.page0 ".w" 1, [])).2 in
  ¬ (Observer.fired 5 tr ≤ 1)%nat ∧ ¬ (Observer.fired 4 tr = 0).
Proof. vm_compute. split; [lia|discriminate]. Qed.

(** * Properties of the REST engine *)

Section RESTFacts.

Import REST.

Variable P : Platform.

Lemma bind_ret {A B} (a : A) (f : A → io B) : (mret a ≫= f) = f a.
Proof. unfold mret, mbind, io_mret, io_mbind, io_bind, io_ret. simpl.
  by destruct (f a). Qed.

(** C2, as the code has it.  Whatever the payload, the one fetch of
    [request] goes to the URL with the whole payload appended as its query
    string; under POST the options carry the payload as body as well, under
    any other method they are GET and carry no body.  A payload that is
    rejected starts no fetch. *)
Theorem request_get_and_post (m : string) (type : value) (url : string)
    (data : payload) (k : completion) :
  let r := request P (VStr m) type url data k in
  match result (form_data_of P data) with
  | inl formData =>
      trace r
      = [EvFetch (url +:+ "?" +:+ URLSearchParams_toString formData)
           (if String.eqb (toLowerCase m) "post"
            then {| method := "POST"; body := Some formData |}
            else {| method := "GET"; body := None |})]
  | inr _ => trace r = []
  end.
Proof.
  unfold request. simpl.
  destruct data as [fd|form|v]; simpl; [| |destruct (truthy v); simpl];
    try done; by destruct (String.eqb (toLowerCase m) "post").
Qed.

(** What a guarded call of a user function leaves. *)
Lemma try_log_call (f : nat) (args : list value) (s : site) :
  try_log (call P (VFun f) args) s
  = IO (EvCall f args :: if throws P f args then [EvConsoleError s] else [])
       [] (inl tt).
Proof.
  unfold call, try_log. simpl. by destruct (throws P f args).
Qed.

(** The recursion of [chain], one equation for each kind of step. *)
Lemma chain_array_function (f : nat) rest final :
  chain_array P (VFun f :: rest) final
  = (try_log (call P (VFun f) []) ChainFunction;;
     chain_array P rest final).
Proof. cbn [chain_array prop]. by rewrite bind_ret. Qed.

Lemma chain_array_string (name : string) rest final :
  chain_array P (VStr name :: rest) final
  = match global_function P name with
    | Some g => try_log (call P g []) ChainString
    | None => throw TypeError
    end.
Proof. cbn [chain_array prop]. by rewrite bind_ret. Qed.

Lemma chain_array_object (o : object) rest final :
  chain_array P (VObj o :: rest) final
  = if has o "function" then
      match global_function P (str P (get o "function")) with
      | Some g => try_log (call P g []) ChainFunctionField
      | None => mret tt
      end;;
      chain_array P rest final
    else if has o "method" then
      '(method, url, callback, o') ← prepare P o;
      request P method (or_else (get o "type") VNull) url (DValue (VObj o'))
              (KChain callback rest final)
    else throw (Error "method or function is required").
Proof. cbn [chain_array prop]. by rewrite bind_ret. Qed.

(** A computation that returns, in front of another. *)
Lemma bind_returns {A B} (m : io A) (a : A) (f : A → io B) :
  result m = inl a →
  (m ≫= f) = IO (trace m ++ trace (f a)) (pending m ++ pending (f a))
                (result (f a)).
Proof.
  intros Hr. unfold mbind, io_mbind, io_bind. by rewrite Hr.
Qed.

Lemma bind_throws {A B} (m : io A) (e : error) (f : A → io B) :
  result m = inr e →
  (m ≫= f) = IO (trace m) (pending m) (inr e).
Proof.
  intros Hr. unfold mbind, io_mbind, io_bind. by rewrite Hr.
Qed.

(** C3.  A string step that names a global function calls it, guarded, and
    that is all: nothing of the rest of the list and no final callback is
    run, and no request is started.  A function step is called, guarded,
    and the chain goes on with the rest of the list and the same final
    callback. *)
Theorem chain_string_stops_function_continues
    (name : string) (g f : nat) (rest : list value) (final : value) :
  window P !! name = Some (VFun g) →
  chain P (VArr (VStr name :: rest)) final
  = IO (EvCall g [] ::
          if throws P g [] then [EvConsoleError ChainString] else [])
       [] (inl tt)
  ∧ let m := chain P (VArr (VFun f :: rest)) final in
    let k := chain P (VArr rest) final in
    trace m
    = (EvCall f [] ::
         if throws P f [] then [EvConsoleError ChainFunction] else [])
      ++ trace k
    ∧ pending m = pending k
    ∧ result m = result k.
Proof.
  intros Hg. unfold chain. split.
  - rewrite chain_array_string. unfold global_function. rewrite Hg.
    apply try_log_call.
  - cbn zeta. rewrite chain_array_function, try_log_call.
    by rewrite (bind_returns _ tt).
Qed.

(** The final callback as the base case runs it. *)
Lemma finish_function (f : nat) :
  finish P (VFun f)
  = IO (EvCall f [] ::
          if throws P f [] then [EvConsoleError ChainFinal] else [])
       [] (inl tt)
  ∧ calls f (trace (finish P (VFun f))) = 1.
Proof.
  unfold finish. cbn [is_function]. rewrite try_log_call.
  split; [done|].
  unfold calls. cbn [trace]. rewrite filter_cons. simpl.
  destruct (decide (Some f = Some f)); [|done].
  by destruct (throws P f []).
Qed.

(** C8.  On the empty list, [chain] calls the final callback once, under a
    guard that logs what it throws, runs no step, starts no request, and
    returns. *)
Theorem chain_empty_calls_final (f : nat) :
  let m := chain P (VArr []) (VFun f) in
  m = IO (EvCall f [] ::
            if throws P f [] then [EvConsoleError ChainFinal] else [])
         [] (inl tt)
  ∧ calls f (trace m) = 1.
Proof. unfold chain. cbn [chain_array]. exact (finish_function f). Qed.

(** C10.  [dataAttr] on the empty array returns at once: its trace is
    empty, it starts nothing and sets no timer, so the final callback is
    never called; [chain] on the empty list does call it. *)
Theorem dataAttr_empty_skips_final (finalCallback : value) (f : nat) :
  dataAttr P (AValue (VArr [])) finalCallback = IO [] [] (inl None)
  ∧ calls f (trace (dataAttr P (AValue (VArr [])) (VFun f))) = 0
  ∧ calls f (trace (chain P (VArr []) (VFun f))) = 1.
Proof.
  split; [reflexivity|]. split; [reflexivity|].
  unfold chain. cbn [chain_array]. exact (proj2 (finish_function f)).
Qed.

(** *** Paths *)

(** [object_name], character by character. *)
Lemma object_name_cons (a : ascii) (s : string) :
  object_name (String a s)
  = if Ascii.eqb a "." then "" else String a (object_name s).
Proof.
  unfold object_name. simpl. destruct (Ascii.eqb a "."); [done|].
  destruct (indexOf "." s) as [i|]; simpl; done.
Qed.

Lemma includes_cons (a : ascii) (s : string) :
  includes "." (String a s) = Ascii.eqb a "." || includes "." s.
Proof.
  unfold includes. simpl. destruct (Ascii.eqb a "."); simpl; [done|].
  by destruct (indexOf "." s).
Qed.

Lemma startsWith_refl (s : string) : startsWith s s = true.
Proof.
  induction s as [|a s IH]; simpl; [done|].
  by rewrite Ascii.eqb_refl.
Qed.

(** On a dotted path the filter is the comparison of the object name. *)
Lemma json_filter_dotted (jsonName : string) (inputNode : Field) :
  includes "." jsonName = false →
  includes "." (f_jsonName inputNode) = true →
  json_filter jsonName inputNode = true
  ↔ object_name (f_jsonName inputNode) = jsonName.
Proof.
  unfold json_filter. intros Hname Hpath. rewrite Hpath.
  revert Hpath. generalize (f_jsonName inputNode) as path. clear inputNode.
  induction jsonName as [|a name IH]; intros path Hpath.
  - destruct path as [|b path]; [done|].
    rewrite object_name_cons. simpl.
    destruct (Ascii.eqb_spec b ".") as [->|Hb].
    + done.
    + simpl. split; [done|congruence].
  - rewrite includes_cons in Hname.
    apply orb_false_iff in Hname as [Ha Hname].
    destruct path as [|b path]; [done|].
    rewrite object_name_cons. rewrite includes_cons in Hpath.
    simpl.
    destruct (Ascii.eqb_spec b a) as [->|Hab].
    + rewrite Ha in *. simpl in Hpath. simpl.
      rewrite (IH Hname path Hpath). split; congruence.
    + simpl. split; [done|]. destruct (Ascii.eqb b "."); congruence.
Qed.

(** On a path without a dot it is a prefix test. *)
Lemma json_filter_plain (jsonName : string) (inputNode : Field) :
  includes "." (f_jsonName inputNode) = false →
  json_filter jsonName inputNode
  = startsWith (f_jsonName inputNode) jsonName.
Proof. unfold json_filter. by intros ->. Qed.

(** Every tagged field passes the filter of its own object name. *)
Lemma json_filter_own (inputNode : Field) :
  json_filter (object_name (f_jsonName inputNode)) inputNode = true.
Proof.
  unfold json_filter.
  generalize (f_jsonName inputNode) as path. intros path.
  destruct (includes "." path) eqn:Hdot.
  - induction path as [|a path IH]; [done|].
    rewrite includes_cons in Hdot. rewrite object_name_cons.
    destruct (Ascii.eqb_spec a ".") as [->|Ha]; simpl; [done|].
    rewrite Ascii.eqb_refl. apply IH.
    destruct (Ascii.eqb_spec a "."); [congruence|done].
  - unfold object_name, includes in *.
    destruct (indexOf "." path); [done|apply startsWith_refl].
Qed.

(** *** The form *)

Variable H : Helpers.

Lemma typeForResponse_json (form : Form) :
  typeForResponse form = "json"
  ↔ head (notifications form) = Some "response_json".
Proof.
  unfold typeForResponse. destruct (notifications form) as [|mode l]; simpl.
  - split; discriminate.
  - destruct (String.eqb_spec mode "response_json") as [->|Hne].
    + done.
    + split; [discriminate|]. intros [= ->]. done.
Qed.

(** The loop over the fields of a group: the object takes the selected
    fields, the form data loses the names of all of them. *)
Lemma foldl_collect (l : list Field) (jsonObject : value) (fd : FormData) :
  foldl (collect H) (jsonObject, fd) l
  = (foldl (put H) jsonObject (filter (λ f, selected f = true) l),
     foldl (λ fd' f, fd_delete fd' (f_name f)) fd l).
Proof.
  revert jsonObject fd. induction l as [|f l IH]; intros jsonObject fd.
  - done.
  - simpl. rewrite IH, filter_cons.
    destruct (selected f); simpl; [|done].
    by destruct (decide (true = true)).
Qed.

Lemma foldl_delete_elem (l : list Field) (fd : FormData) k v :
  (k, v) ∈ foldl (λ fd' f, fd_delete fd' (f_name f)) fd l →
  (k, v) ∈ fd ∧ ∀ f, f ∈ l → f_name f ≠ k.
Proof.
  revert fd. induction l as [|f l IH]; intros fd Hin; simpl in *.
  - split; [done|]. intros f Hf. inversion Hf.
  - apply IH in Hin as [Hin Hl]. unfold fd_delete in Hin.
    apply list_elem_of_filter in Hin as [Hne Hin]. simpl in Hne.
    split; [done|]. intros f' Hf'.
    apply elem_of_cons in Hf' as [->|Hf']; [congruence|by apply Hl].
Qed.



(** What one round of the loop over the names returns. *)
Lemma assemble_returns (form : Form) (fd : FormData) (jsonName : string) :
  ∃ json tr,
    assemble P H form fd jsonName
    = IO tr [] (inl (fd_append (collect_all H form fd jsonName).2
                               (object_name jsonName) json))
    ∧ Forall (λ e, e = EvConsoleError FormMergeParse) tr.
Proof.
  unfold assemble.
  destruct (collect_all H form fd jsonName) as [jsonObject fd'] eqn:Hc.
  destruct (attr_json_merge form) as [jsonData|]; simpl.
  - destruct (JSON_parse P jsonData) as [v|]; simpl.
    + eexists _, _. split; [reflexivity|constructor].
    + eexists _, _. split; [reflexivity|]. by repeat constructor.
  - eexists _, _. split; [reflexivity|constructor].
Qed.

(** After the loop, an entry of the form data is an object appended under
    its name, or an entry the form had whose name is that of no field of
    the groups. *)
Lemma assemble_all_returns (form : Form) (names : list string)
    (fd : FormData) :
  ∃ fd' tr,
    assemble_all P H form fd names = IO tr [] (inl fd')
    ∧ Forall (λ e, e = EvConsoleError FormMergeParse) tr
    ∧ ∀ k v, (k, v) ∈ fd' →
        k ∈ object_name <$> names
        ∨ ((k, v) ∈ fd
           ∧ ∀ f, f ∈ jsonFields form →
                  object_name (f_jsonName f) ∈ names → f_name f ≠ k).
Proof.
  revert fd. induction names as [|jn names IH]; intros fd.
  - exists fd, []. split; [done|]. split; [constructor|].
    intros k v Hin. right. split; [done|]. intros f _ Hf. inversion Hf.
  - cbn [assemble_all].
    destruct (assemble_returns form fd jn) as (json & tr1 & -> & Hq1).
    destruct (IH (fd_append (collect_all H form fd jn).2 (object_name jn) json))
      as (fd' & tr2 & Heq & Hq2 & Hinv).
    exists fd', (tr1 ++ tr2). split; [|split].
    + rewrite (bind_returns _ (fd_append (collect_all H form fd jn).2
                                         (object_name jn) json)); [|done].
      by rewrite Heq.
    + by apply Forall_app.
    + intros k v Hin. destruct (Hinv k v Hin) as [Hl|[Hin1 Hrest]].
      * left. rewrite fmap_cons. by right.
      * unfold fd_append in Hin1. apply elem_of_app in Hin1 as [Hold|Hnew].
        -- right. unfold collect_all in Hold. rewrite foldl_collect in Hold.
           simpl in Hold. apply foldl_delete_elem in Hold as [Hfd Hgroup].
           split; [done|]. intros f Hf Hown.
           apply elem_of_cons in Hown as [Hjn|Hnames]; [|by apply Hrest].
           apply Hgroup. apply list_elem_of_filter. split; [|done].
           rewrite <- Hjn. apply json_filter_own.
        -- apply list_elem_of_singleton in Hnew as [= -> _].
           left. rewrite fmap_cons. left.
Qed.

(** The one fetch of [formSubmit] and the form data it carries. *)
Lemma formSubmit_fetch (form : Form) (callback : value) :
  ∃ fd tr,
    assemble_all P H form (form_entries form) (jsonNames form)
    = IO tr [] (inl fd)
    ∧ Forall (λ e, e = EvConsoleError FormMergeParse) tr
    ∧ trace (formSubmit P H (Some form) callback)
      = tr ++ [EvFetch
                 (attr_or (attr_action form) (location_href P) +:+ "?" +:+
                  URLSearchParams_toString
                    (fd_append fd "from" (location_href P)))
                 {| method := "POST";
                    body := Some (fd_append fd "from" (location_href P)) |}]
    ∧ pending (formSubmit P H (Some form) callback)
      = [ {| p_dataType := VStr (typeForResponse form);
             p_data := DFormData (fd_append fd "from" (location_href P));
             p_callbackSuccess := KForm form callback |} ].
Proof.
  destruct (assemble_all_returns form (jsonNames form) (form_entries form))
    as (fd & tr & Heq & Hq & _).
  exists fd, tr. split; [done|]. split; [done|].
  unfold formSubmit. rewrite (bind_returns _ fd); [|by rewrite Heq].
  rewrite Heq. simpl.
  assert (Ht : truthy (VStr (typeForResponse form)) = true).
  { unfold typeForResponse. destruct (notifications form) as [|mode l];
      [done|]. by destruct (String.eqb mode "response_json"). }
  simpl in Ht. rewrite Ht. done.
Qed.

(** *** The promise handlers *)

Lemma calm_ret {A} (a : A) : calm (mret a : io A).
Proof. split; [done|constructor]. Qed.

Lemma calm_throw {A} (e : error) : calm (throw e : io A).
Proof. split; [done|constructor]. Qed.

Lemma calm_bind {A B} (m : io A) (f : A → io B) :
  calm m → (∀ a, calm (f a)) → calm (m ≫= f).
Proof.
  intros [Hp Hq] Hf. unfold mbind, io_mbind, io_bind.
  destruct (result m) as [a|e]; [|by split].
  destruct (Hf a) as [Hp' Hq']. split; simpl.
  - by rewrite Hp, Hp'.
  - by apply Forall_app.
Qed.

Lemma calm_for_each {A} (f : A → io unit) (l : list A) :
  (∀ x, calm (f x)) → calm (for_each f l).
Proof.
  intros Hf. induction l as [|x l IH]; simpl; [apply calm_ret|].
  apply calm_bind; auto.
Qed.

Lemma calm_innerHTML (t : target) (v : value) : calm (emit (EvInnerHTML t v)).
Proof. split; [done|]. by repeat constructor. Qed.

Lemma calm_prop (v : value) (k : string) : calm (prop v k).
Proof. destruct v; try apply calm_throw; apply calm_ret. Qed.

Lemma calm_query_all (sel : string) : calm (query_all P sel).
Proof.
  unfold query_all. destruct (document_querySelectorAll P sel);
    [apply calm_ret|apply calm_throw].
Qed.

Lemma calm_routed (v : value) (f : string → io unit) :
  (∀ sel, calm (f sel)) →
  calm match v with
       | VStr sel => if truthy (VStr sel) then f sel else mret tt
       | _ => mret tt
       end.
Proof.
  intros Hf. destruct v as [| |b|z|sel|g|l|o]; try apply calm_ret.
  destruct (truthy (VStr sel)); [apply Hf|apply calm_ret].
Qed.

Lemma calm_route (data : payload) (response : value) :
  calm (route P data response).
Proof.
  unfold route. apply calm_bind; [|intros _; apply calm_bind; [|intros _]].
  - apply (calm_routed _ (λ sel, _ ≫= _)). intros sel.
    apply calm_bind; [apply calm_query_all|]. intros els.
    apply calm_for_each. intros el.
    destruct (fragment_innerHTML P _ _);
      [apply calm_innerHTML|apply calm_throw].
  - apply (calm_routed _ (λ sel, _ ≫= _)). intros sel.
    apply calm_bind; [apply calm_query_all|]. intros els.
    apply calm_for_each. intros el. apply calm_innerHTML.
  - apply (calm_routed _ (λ sel, _ ≫= _)). intros sel.
    apply calm_bind; [apply calm_query_all|]. intros els.
    apply calm_for_each. intros el.
    apply calm_bind; [apply calm_prop|]. intros msg. apply calm_innerHTML.
Qed.

(** Up to the call of the completion, the handlers call no user function. *)
Lemma received_quiet (dataType : value) (data : payload) (t : transport) :
  Forall quiet (received P dataType data t).1.
Proof.
  unfold received. destruct t as [|body]; [by repeat constructor|].
  destruct (read_body P dataType body) as [response|];
    [|by repeat constructor].
  destruct (calm_route data response) as [_ Hq].
  destruct (result (route P data response)); simpl; [done|].
  apply Forall_app. split; [done|]. by repeat constructor.
Qed.

Lemma try_log_returns (m : io unit) (s : site) :
  result (try_log m s) = inl tt.
Proof.
  unfold try_log. destruct (result m) as [[]|e] eqn:Hr; [|done].
  by rewrite Hr.
Qed.

Lemma invoke_returns (k : completion) (response : value) :
  result (invoke P k response) = inl tt.
Proof.
  unfold invoke. destruct (completion_is_function k); [|reflexivity].
  apply try_log_returns.
Qed.

Lemma on_rejected_eq (k : completion) :
  on_rejected P k
  = IO (EvConsoleError RequestTransport :: trace (invoke P k VNull))
       (pending (invoke P k VNull)) (inl tt).
Proof.
  unfold on_rejected. rewrite (bind_returns _ tt); [|done]. simpl.
  by rewrite invoke_returns.
Qed.

(** When a fetch settles, the handlers do what [received] says and then
    call the completion, once, with the value [received] gives. *)
Lemma settle_received (p : inflight) (t : transport) :
  let r := received P (p_dataType p) (p_data p) t in
  settle P p t
  = IO (r.1 ++ trace (invoke P (p_callbackSuccess p) r.2))
       (pending (invoke P (p_callbackSuccess p) r.2))
       (inl tt).
Proof.
  unfold settle, received. rewrite on_rejected_eq.
  destruct t as [|body]; [done|].
  destruct (read_body P (p_dataType p) body) as [response|]; [|done].
  destruct (calm_route (p_data p) response) as [Hp _].
  destruct (result (route P (p_data p) response)) as [[]|e] eqn:Hr.
  - rewrite (bind_returns _ tt _ Hr). unfold catch. simpl.
    by rewrite invoke_returns, Hp.
  - rewrite (bind_throws _ e _ Hr). unfold catch. simpl.
    by rewrite Hp, <- app_assoc.
Qed.

(** *** The chain and the run loop *)

Lemma guard_returns (async : bool) (m : io unit) (u : unit) :
  result m = inl u → guard async m = m.
Proof.
  intros Hr. unfold guard, try_log. destruct async; [|done].
  by rewrite Hr.
Qed.

(** A step that returns and starts nothing, in front of the rest of a
    guarded computation. *)
Lemma run_guard_bind {A} (ts : list transport) (async : bool)
    (c : io A) (x : A) (f : A → io unit) :
  result c = inl x → pending c = [] →
  run P ts (guard async (c ≫= f)) = trace c ++ run P ts (guard async (f x)).
Proof.
  intros Hr Hp. rewrite (bind_returns _ x _ Hr), Hp.
  unfold run, guard, try_log. destruct async; simpl.
  - destruct (result (f x)); simpl; by rewrite <- !app_assoc.
  - by rewrite <- app_assoc.
Qed.

Lemma local_callback_returns (callback response : value) :
  result (local_callback P callback response) = inl tt
  ∧ pending (local_callback P callback response) = [].
Proof.
  unfold local_callback. destruct callback; try done. simpl.
  by destruct (throws P f [response]).
Qed.

Lemma invoke_chain (callback : value) (rest : list value)
    (final response : value) :
  invoke P (KChain callback rest final) response
  = guard true (local_callback P callback response;;
                chain_array P rest final).
Proof. done. Qed.

(** The fetch [request] starts for an object payload. *)
Lemma request_dispatch (m : string) (type : value) (url : string)
    (o : object) (k : completion) :
  ∃ fetch dataType,
    (∃ u options, fetch = EvFetch u options)
    ∧ ∀ k, request P (VStr m) type url (DValue (VObj o)) k
           = IO [fetch]
                [ {| p_dataType := dataType; p_data := DValue (VObj o);
                     p_callbackSuccess := k |} ]
                (inl tt).
Proof.
  eexists _, _. split; [by eexists _, _|]. intros k'. reflexivity.
Qed.

(** [prepare] leaves no trace, and where it returns, the method is a
    string. *)
Lemma prepare_returns (o : object) method url callback o' :
  result (prepare P o) = inl (method, url, callback, o') →
  (∃ m, method = VStr m)
  ∧ trace (prepare P o) = [] ∧ pending (prepare P o) = [].
Proof.
  unfold prepare.
  destruct (if truthy (get o "page") && truthy (get o "module")
            then _ else _) as [u o1].
  destruct (get o "method") as [| |b|z|m|g|l|o0]; try done.
  simpl. intros [= <- _ _ _]. split; [by eexists|done].
Qed.

Lemma prepare_throws (o : object) (e : error) :
  result (prepare P o) = inr e →
  trace (prepare P o) = [] ∧ pending (prepare P o) = [].
Proof.
  unfold prepare.
  destruct (if truthy (get o "page") && truthy (get o "module")
            then _ else _) as [u o1].
  by destruct (get o "method") as [| |b|z|m|g|l|o0].
Qed.

(** A request step at the head of the list.  The call starts the fetch and
    returns.  Nothing more happens until the fetch settles; then the
    handlers run, then the step's own callback, and only then the chain
    goes on with the rest of the list. *)
Lemma chain_request_head (o : object) method url callback o' :
  has o "function" = false → has o "method" = true →
  result (prepare P o) = inl (method, url, callback, o') →
  ∃ fetch dataType,
    (∃ u options, fetch = EvFetch u options)
    ∧ ∀ ts async rest final,
        run P ts (guard async (chain_array P (VObj o :: rest) final))
        = fetch ::
          match ts with
          | [] => []
          | t :: ts' =>
              (received P dataType (DValue (VObj o')) t).1
              ++ trace (local_callback P callback
                          (received P dataType (DValue (VObj o')) t).2)
              ++ run P ts' (guard true (chain_array P rest final))
          end.
Proof.
  intros Hf Hm Hprep.
  destruct (prepare_returns o _ _ _ _ Hprep) as ([m ->] & Htr & Hpe).
  destruct (request_dispatch m (or_else (get o "type") VNull) url o'
              (KUser VNull)) as (fetch & dataType & Hshape & Hreq).
  exists fetch, dataType. split; [done|]. intros ts async rest final.
  rewrite chain_array_object, Hf, Hm.
  rewrite (run_guard_bind ts async _ _ _ Hprep Hpe), Htr. simpl app.
  cbn beta iota. rewrite Hreq.
  rewrite (guard_returns async _ tt); [|done].
  unfold run. cbn [trace pending app].
  destruct ts as [|t ts']; [done|]. cbn [drive].
  rewrite settle_received. cbn [trace pending p_dataType p_data
                                p_callbackSuccess app].
  rewrite invoke_chain.
  destruct (local_callback_returns callback
              (received P dataType (DValue (VObj o')) t).2) as [Hlr Hlp].
  pose proof (run_guard_bind ts' true _ tt
                (λ _, chain_array P rest final) Hlr Hlp) as Hrun.
  unfold run in Hrun. f_equal. rewrite <- app_assoc, Hrun. reflexivity.
Qed.

(** A step that is neither a function, a string nor an object ends the
    chain with an exception. *)
Lemma chain_array_other (data : value) rest final :
  match data with VFun _ | VStr _ | VObj _ => False | _ => True end →
  chain_array P (data :: rest) final
  = throw match data with
          | VArr _ => Error "method or function is required"
          | _ => TypeError
          end.
Proof. by destruct data. Qed.

Lemma function_field_returns (o : object) :
  let c := match global_function P (str P (get o "function")) with
           | Some g => try_log (call P g []) ChainFunctionField
           | None => mret tt
           end in
  result c = inl tt ∧ pending c = [].
Proof.
  simpl. unfold global_function.
  destruct (window P !! str P (get o "function")) as [[| | | | |g| |]|];
    try done.
  rewrite try_log_call. done.
Qed.

(** A prefix of the list runs the same whatever follows it: its trace
    comes first, and what follows is run after it, from the outcomes that
    are left, or not at all. *)
Lemma chain_prefix (pre : list value) (ts : list transport) (async : bool) :
  ∃ before (reach : option (list transport * bool)),
    ∀ rest final,
      run P ts (guard async (chain_array P (pre ++ rest) final))
      = before ++
        match reach with
        | None => []
        | Some (ts', async') =>
            run P ts' (guard async' (chain_array P rest final))
        end.
Proof.
  revert ts async. induction pre as [|data pre IH]; intros ts async.
  { exists [], (Some (ts, async)). done. }
  assert (Hstop : ∀ X : io unit,
            (∀ rest final, chain_array P (data :: pre ++ rest) final = X) →
            ∃ before (reach : option (list transport * bool)),
              ∀ rest final,
                run P ts (guard async
                            (chain_array P ((data :: pre) ++ rest) final))
                = before ++
                  match reach with
                  | None => []
                  | Some (ts', async') =>
                      run P ts' (guard async' (chain_array P rest final))
                  end).
  { intros X HX. exists (run P ts (guard async X)), None.
    intros rest final. simpl app. by rewrite HX, app_nil_r. }
  destruct data as [| |b|z|name|f|l|o].
  - apply (Hstop (throw TypeError)). intros. by apply chain_array_other.
  - apply (Hstop (throw TypeError)). intros. by apply chain_array_other.
  - apply (Hstop (throw TypeError)). intros. by apply chain_array_other.
  - apply (Hstop (throw TypeError)). intros. by apply chain_array_other.
  - eapply Hstop. intros. apply chain_array_string.
  - destruct (IH ts async) as (before & reach & Hrest).
    exists (trace (try_log (call P (VFun f) []) ChainFunction) ++ before),
           reach.
    intros rest final. simpl app. rewrite chain_array_function.
    rewrite (run_guard_bind ts async _ tt).
    + by rewrite Hrest, app_assoc.
    + apply try_log_returns.
    + by rewrite try_log_call.
  - apply (Hstop (throw (Error "method or function is required"))).
    intros. by apply chain_array_other.
  - destruct (has o "function") eqn:Hf.
    { destruct (IH ts async) as (before & reach & Hrest).
      destruct (function_field_returns o) as [Hr Hp].
      exists (trace match global_function P (str P (get o "function")) with
                    | Some g => try_log (call P g []) ChainFunctionField
                    | None => mret tt
                    end ++ before), reach.
      intros rest final. simpl app. rewrite chain_array_object, Hf.
      rewrite (run_guard_bind ts async _ tt _ Hr Hp).
      by rewrite Hrest, app_assoc. }
    destruct (has o "method") eqn:Hm.
    2: { apply (Hstop (throw (Error "method or function is required"))).
         intros. by rewrite chain_array_object, Hf, Hm. }
    destruct (result (prepare P o)) as [[[[method url] callback] o']|e]
      eqn:Hprep.
    2: { destruct (prepare_throws o e Hprep) as [Htr Hpe].
         apply (Hstop (IO [] [] (inr e))). intros.
         rewrite chain_array_object, Hf, Hm.
         by rewrite (bind_throws _ e _ Hprep), Htr, Hpe. }
    destruct (chain_request_head o _ _ _ _ Hf Hm Hprep)
      as (fetch & dataType & _ & Hhead).
    destruct ts as [|t ts'].
    { exists [fetch], None. intros rest final. simpl app.
      by rewrite Hhead. }
    destruct (IH ts' true) as (before & reach & Hrest).
    exists (fetch :: (received P dataType (DValue (VObj o')) t).1
              ++ trace (local_callback P callback
                          (received P dataType (DValue (VObj o')) t).2)
              ++ before), reach.
    intros rest final. simpl app. rewrite Hhead, Hrest.
    by rewrite <- !app_assoc.
Qed.

Lemma drive_nil (ts : list transport) : drive P ts [] = [].
Proof. by destruct ts. Qed.

Lemma finish_returns (final : value) :
  result (finish P final) = inl tt ∧ pending (finish P final) = [].
Proof.
  unfold finish. destruct final; try done. simpl.
  by destruct (throws P f []).
Qed.

(** A chain of one function step, run from a promise handler. *)
Lemma run_last_function (ts : list transport) (c : nat) (final : value) :
  run P ts (guard true (chain_array P [VFun c] final))
  = (EvCall c [] ::
       if throws P c [] then [EvConsoleError ChainFunction] else [])
    ++ trace (finish P final).
Proof.
  rewrite chain_array_function.
  rewrite (run_guard_bind ts true _ tt);
    [|apply try_log_returns|by rewrite try_log_call].
  rewrite try_log_call. cbn [trace chain_array]. f_equal.
  destruct (finish_returns final) as [Hr Hp].
  rewrite (guard_returns true _ tt Hr). unfold run.
  by rewrite Hp, drive_nil, app_nil_r.
Qed.

(** C6.  Take a chain with a request step [o] anywhere in it.  What runs
    before the step is the same whatever follows the step.  If the chain
    gets to the step, it starts the fetch and nothing else: with no outcome
    to come the trace ends there.  When the fetch settles, the handlers of
    [request] run first, and they call no user function; then the step's
    own callback runs; and only after it the steps that follow the request,
    in their order.  For the steps [a], [o], [c] with functions [a] and
    [c]: before the response there is the call of [a] and the fetch; with
    the response, the call of [c] follows the step's callback. *)
Theorem chain_later_steps_wait
    (pre : list value) (o : object) (method callback : value)
    (url : string) (o' : object) :
  has o "function" = false → has o "method" = true →
  result (prepare P o) = inl (method, url, callback, o') →
  ∃ fetch dataType,
    (∃ u options, fetch = EvFetch u options)
    ∧ (∀ t, Forall quiet (received P dataType (DValue (VObj o')) t).1)
    ∧ (∀ ts, ∃ before (reach : option (list transport)),
         ∀ post final,
           run P ts (chain P (VArr (pre ++ VObj o :: post)) final)
           = before ++
             match reach with
             | None => []
             | Some [] => [fetch]
             | Some (t :: ts') =>
                 fetch :: (received P dataType (DValue (VObj o')) t).1
                 ++ trace (local_callback P callback
                             (received P dataType (DValue (VObj o')) t).2)
                 ++ run P ts' (guard true (chain_array P post final))
             end)
    ∧ (∀ a c final,
         let step (f : nat) :=
           EvCall f [] ::
             if throws P f [] then [EvConsoleError ChainFunction] else [] in
         run P [] (chain P (VArr [VFun a; VObj o; VFun c]) final)
         = step a ++ [fetch]
         ∧ ∀ t ts',
             run P (t :: ts') (chain P (VArr [VFun a; VObj o; VFun c]) final)
             = step a ++ fetch ::
               (received P dataType (DValue (VObj o')) t).1
               ++ trace (local_callback P callback
                           (received P dataType (DValue (VObj o')) t).2)
               ++ step c ++ trace (finish P final)).
Proof.
  intros Hf Hm Hprep.
  destruct (chain_request_head o _ _ _ _ Hf Hm Hprep)
    as (fetch & dataType & Hshape & Hhead).
  exists fetch, dataType. split; [done|].
  split; [intros t; apply received_quiet|]. split.
  - intros ts. destruct (chain_prefix pre ts false) as (before & reach & Hpre).
    exists before, (fst <$> reach). intros post final. unfold chain.
    specialize (Hpre (VObj o :: post) final).
    change (guard false (chain_array P (pre ++ VObj o :: post) final))
      with (chain_array P (pre ++ VObj o :: post) final) in Hpre.
    rewrite Hpre. f_equal. destruct reach as [[ts' async']|]; [|done].
    rewrite Hhead. by destruct ts'.
  - intros a c final step. unfold chain.
    assert (Hstep : ∀ ts,
      run P ts (chain_array P [VFun a; VObj o; VFun c] final)
      = step a ++ run P ts (guard false
                              (chain_array P [VObj o; VFun c] final))).
    { intros ts. rewrite chain_array_function, try_log_call.
      exact (run_guard_bind ts false (IO (step a) [] (inl tt)) tt
               (λ _, chain_array P [VObj o; VFun c] final)
               eq_refl eq_refl). }
    split.
    + by rewrite Hstep, Hhead.
    + intros t ts'. rewrite Hstep, Hhead, run_last_function. done.
Qed.



End RESTFacts.

(** C6 at the steps function 1, [ping], function 2 on the page [browser],
    before any response. *)
Lemma chain_later_steps_wait_witness :
  REST.has REST.ping "function" = false
  ∧ REST.has REST.ping "method" = true
  ∧ REST.result (REST.prepare REST.browser REST.ping)
    = inl (REST.VStr "GET", "/page", REST.VFun 3,
           [("mime", REST.VStr "txt")])
  ∧ ∃ fetch,
      REST.run REST.browser []
        (REST.chain REST.browser
           (REST.VArr [REST.VFun 1; REST.VObj REST.ping; REST.VFun 2])
           (REST.VFun 5))
      = [REST.EvCall 1 []; fetch].
Proof.
  assert (Hf : REST.has REST.ping "function" = false) by reflexivity.
  assert (Hm : REST.has REST.ping "method" = true) by reflexivity.
  assert (Hp : REST.result (REST.prepare REST.browser REST.ping)
               = inl (REST.VStr "GET", "/page", REST.VFun 3,
                      [("mime", REST.VStr "txt")])) by reflexivity.
  split; [exact Hf|]. split; [exact Hm|]. split; [exact Hp|].
  destruct (chain_later_steps_wait REST.browser [] REST.ping _ _ _ _
              Hf Hm Hp) as (fetch & dataType & _ & _ & _ & Habc).
  exists fetch. exact (proj1 (Habc 1 2 (REST.VFun 5))).
Defined.



(** C4 at the value the comment above [formSubmit] documents: a region
    marked [json] makes the request a text request, because the code
    compares the mark with [response_json]. *)
Lemma formSubmit_json_region_requests_text :
  REST.typeForResponse REST.notice_form = "text"
  ∧ REST.p_dataType
      <$> REST.pending (REST.formSubmit REST.browser REST.idle
                          (Some REST.notice_form) REST.VNull)
    = [REST.VStr "text"].
Proof. split; reflexivity. Qed.

(** C5 at the paths [user.name] and [userx]: the filter of the name
    [user] takes the field [userx], whose object name is not [user]. *)
Lemma json_filter_takes_prefix :
  REST.object_name (REST.f_jsonName REST.userx) ≠ "user"
  ∧ REST.json_filter "user" REST.userx = true
  ∧ filter (λ f, REST.json_filter "user" f = true)
           (REST.jsonFields REST.signup)
    = [REST.user_name; REST.userx].
Proof. split; [discriminate|]. split; reflexivity. Qed.

(** C3 on the page [browser], whose [test] is the function 7. *)
Lemma chain_string_stops_function_continues_witness :
  REST.window REST.browser !! "test" = Some (REST.VFun 7)
  ∧ REST.chain REST.browser
      (REST.VArr [REST.VStr "test"; REST.VFun 1]) (REST.VFun 2)
    = REST.IO [REST.EvCall 7 []] [] (inl tt).
Proof.
  assert (Hg : REST.window REST.browser !! "test" = Some (REST.VFun 7))
    by reflexivity.
  split; [exact Hg|].
  exact (proj1 (chain_string_stops_function_continues REST.browser
                  "test" 7 1 [REST.VFun 1] (REST.VFun 2) Hg)).
Defined.

(** C2 as stated fails under POST: the payload is in the body and in the
    URL. *)
Lemma request_post_keeps_query :
  let r := REST.request REST.browser (REST.VStr "POST") REST.VNull "/api"
             (REST.DValue (REST.VObj [("a", REST.VStr "1")]))
             (REST.KUser REST.VNull) in
  REST.trace r
  = [REST.EvFetch "/api?a=1"
       {| REST.method := "POST"; REST.body := Some [("a", "1")] |}]
  ∧ ¬ (∃ options, REST.trace r = [REST.EvFetch "/api" options]).
Proof.
  split; [reflexivity|]. intros [options Heq]. vm_compute in Heq.
  discriminate.
Qed.

(** * More on the mutation watcher *)

Section ObserverMore.

Import Observer.

Variable throws : nat → node → bool.

(** The inner loop of the removal never adds a node, and drops the removed
    node if it walks over it. *)
Lemma removal_result (removedNode : node) (walked : list node) (l : Listener) :
  let l' := foldl (λ (l' : Listener) (existedNode : node),
                     if bool_decide (existedNode = removedNode)
                     then set_nodes l'
                            (filter (λ m, m ≠ existedNode)
                                    (alreadyExistedNodes l'))
                     else l') l walked in
  (∀ m, m ∈ alreadyExistedNodes l' → m ∈ alreadyExistedNodes l)
  ∧ (NoDup (alreadyExistedNodes l) → NoDup (alreadyExistedNodes l'))
  ∧ (removedNode ∈ walked → removedNode ∉ alreadyExistedNodes l').
Proof.
  revert l. induction walked as [|e walked IH]; intros l; simpl.
  - split; [done|]. split; [done|]. intros Hin. inversion Hin.
  - case_bool_decide as He.
    + subst e.
      destruct (IH (set_nodes l (filter (λ m, m ≠ removedNode)
                                        (alreadyExistedNodes l))))
        as (Hsub & Hnd & _). simpl in Hsub, Hnd.
      split; [|split].
      * intros m Hm. apply Hsub in Hm.
        by apply list_elem_of_filter in Hm as [_ Hm].
      * intros Hl. by apply Hnd, NoDup_filter.
      * intros _ Hin. apply Hsub in Hin.
        apply list_elem_of_filter in Hin as [Hne _]. done.
    + destruct (IH l) as (Hsub & Hnd & Hrem).
      split; [done|]. split; [done|]. intros Hin.
      apply elem_of_cons in Hin as [->|Hin]; [done|by apply Hrem].
Qed.

Lemma removal_fields (removedNode : node) (walked : list node) (l : Listener) :
  let l' := foldl (λ (l' : Listener) (existedNode : node),
                     if bool_decide (existedNode = removedNode)
                     then set_nodes l'
                            (filter (λ m, m ≠ existedNode)
                                    (alreadyExistedNodes l'))
                     else l') l walked in
  selector l' = selector l ∧ callback l' = callback l.
Proof.
  revert l. induction walked as [|e walked IH]; intros l; simpl; [done|].
  case_bool_decide; [|apply IH].
  destruct (IH (set_nodes l (filter (λ m, m ≠ e) (alreadyExistedNodes l))))
    as [Hs Hc]. by split.
Qed.

Lemma check_removed_subset s removedNode m :
  known m (check_removed s removedNode) → known m s.
Proof.
  destruct s as [l tr]. unfold check_removed, known. simpl.
  apply (removal_result removedNode (alreadyExistedNodes l) l).
Qed.

Lemma check_removed_evicts s n : ¬ known n (check_removed s n).
Proof.
  destruct s as [l tr]. unfold check_removed, known. simpl.
  destruct (removal_result n (alreadyExistedNodes l) l) as (Hsub & _ & Hrem).
  intros Hin. destruct (decide (n ∈ alreadyExistedNodes l)) as [Hk|Hk].
  - by apply Hrem.
  - by apply Hk, Hsub.
Qed.

(** Eviction.  A record that lists a node as removed leaves the node out
    of the listener's known nodes, whatever the record adds: the removals
    of a record are worked off after its additions. *)
Theorem check_record_evicts (dom : Dom) (s : st) (r : MutationRecord)
    (n : node) :
  n ∈ removedNodes r → ¬ known n (check_record throws dom s r).
Proof.
  intros Hn. unfold check_record.
  refine (foldl_reach (λ _, True) (λ s', ¬ known n s') check_removed
            (removedNodes r) n Hn _ _ _ _ I).
  - done.
  - intros s' _. apply check_removed_evicts.
  - intros s' y _ _ Hnot Hk. by apply Hnot, (check_removed_subset s' y).
Qed.

(** A node that is not known, for instance after its eviction, is called
    once when an added node mentions it, and is known from then on: the
    callback fires once more for a node that comes back. *)
Theorem unknown_mention_fires (dom : Dom) (s : st) (a p n : node) :
  ¬ known n s →
  parentNode dom a = Some p →
  n ∈ querySelectorAll dom (Some p) (selector s.1) →
  count n (check_added throws dom s a) = S (count n s)
  ∧ known n (check_added throws dom s a).
Proof.
  intros Hu Hp Hn.
  pose proof (check_added_known throws n dom s a p Hp Hn) as Hk.
  split; [|done].
  destruct (check_added_later throws n dom s a) as (_ & _ & Hlater).
  destruct (Hlater Hu) as [[Hnot _]|[_ Hc]]; done.
Qed.

(** The known nodes stay free of duplicates: a node is pushed only when it
    is not among them, and the removal only filters. *)
Lemma check_inserted_NoDup s x :
  NoDup (alreadyExistedNodes s.1) →
  NoDup (alreadyExistedNodes (check_inserted throws s x).1).
Proof.
  destruct s as [l tr]. unfold check_inserted. simpl.
  case_bool_decide as Hin; simpl; [done|]. intros Hnd.
  apply NoDup_app. split; [done|]. split; [|apply NoDup_singleton].
  intros y Hy Hx. apply list_elem_of_singleton in Hx. by subst.
Qed.

(** Over any sequence of batches a listener whose known nodes hold no
    node twice is left with known nodes that hold no node twice. *)
Theorem check_batches_NoDup (bs : list batch) (s : st) :
  NoDup (alreadyExistedNodes s.1) →
  NoDup (alreadyExistedNodes (check_batches throws bs s).1).
Proof.
  unfold check_batches.
  apply (foldl_keep (λ s', NoDup (alreadyExistedNodes s'.1))).
  intros s1 b _. unfold check_listener.
  apply (foldl_keep (λ s', NoDup (alreadyExistedNodes s'.1))).
  intros s2 r _ Hnd. unfold check_record.
  apply (foldl_keep (λ s', NoDup (alreadyExistedNodes s'.1))).
  - intros [l tr] x _. unfold check_removed. simpl.
    apply (removal_result x (alreadyExistedNodes l) l).
  - revert Hnd.
    apply (foldl_keep (λ s', NoDup (alreadyExistedNodes s'.1))).
    intros s3 a _. unfold check_added.
    destruct (parentNode b.1 a); [|done].
    apply (foldl_keep (λ s', NoDup (alreadyExistedNodes s'.1))).
    intros s4 x _. apply check_inserted_NoDup.
Qed.

(** Two runs that go through the same steps in step with each other. *)
Lemma foldl_together {S B} (R : S → S → Prop) (f1 f2 : S → B → S)
    (l : list B) :
  (∀ x s1 s2, R s1 s2 → R (f1 s1 x) (f2 s2 x)) →
  ∀ s1 s2, R s1 s2 → R (foldl f1 s1 l) (foldl f2 s2 l).
Proof.
  intros Hstep. induction l as [|x l IH]; intros s1 s2 HR; simpl; [done|].
  apply IH, Hstep, HR.
Qed.

(** Failure isolation.  Whether calls of the callback throw changes
    neither the nodes the callback is called on, nor their order, nor the
    known nodes the listener is left with: a throw is logged and the loops
    go on. *)
Theorem callback_failure_isolated (throws' : nat → node → bool)
    (bs : list batch) (l : Listener) :
  (check_batches throws bs (l, [])).1 = (check_batches throws' bs (l, [])).1
  ∧ omap called (check_batches throws bs (l, [])).2
    = omap called (check_batches throws' bs (l, [])).2.
Proof.
  set (R := λ s1 s2 : st, s1.1 = s2.1 ∧ omap called s1.2 = omap called s2.2).
  change (R (check_batches throws bs (l, []))
            (check_batches throws' bs (l, []))).
  unfold check_batches. apply (foldl_together R); [|done].
  intros b s1 s2 HR. unfold check_listener.
  apply (foldl_together R); [|done].
  clear s1 s2 HR. intros r s1 s2 HR. unfold check_record.
  apply (foldl_together R).
  - clear s1 s2 HR. intros x [l1 tr1] [l2 tr2] [Hl Htr]. simpl in Hl, Htr.
    subst l2. unfold check_removed. by split.
  - apply (foldl_together R); [|done].
    clear s1 s2 HR. intros a s1 s2 HR. unfold check_added.
    destruct HR as [Hl Htr]. rewrite <- Hl.
    destruct (parentNode b.1 a); [|by split].
    apply (foldl_together R); [|by split].
    clear s1 s2 Hl Htr. intros x [l1 tr1] [l2 tr2] [Hl Htr].
    simpl in Hl, Htr. subst l2. unfold check_inserted.
    case_bool_decide; [by split|]. split; [done|]. simpl.
    rewrite !omap_app, Htr. f_equal.
    by destruct (throws (callback l1) x), (throws' (callback l1) x).
Qed.

(** Added nodes without a parent are passed over: a batch all of whose
    added nodes are detached when it is delivered calls no callback and
    logs nothing, for any listeners. *)
Theorem detached_nodes_ignored (dom : Dom) (records : list MutationRecord)
    (listeners : list Listener) :
  (∀ r a, r ∈ records → a ∈ addedNodes r → parentNode dom a = None) →
  (check throws dom records listeners).2 = [].
Proof.
  intros Hdet. rewrite check_each. simpl.
  assert (Hone : ∀ l, (check_listener throws dom records (l, [])).2 = []).
  { intros l. unfold check_listener.
    apply (foldl_keep (λ s : st, s.2 = [])); [|done].
    intros s r Hr Hs. unfold check_record.
    apply (foldl_keep (λ s : st, s.2 = [])).
    - by intros [l' tr] x _.
    - apply (foldl_keep (λ s : st, s.2 = [])); [|done].
      intros s' a Ha Hs'. unfold check_added. by rewrite (Hdet r a Hr Ha). }
  induction listeners as [|l ls IH]; [done|].
  rewrite fmap_cons. simpl. by rewrite Hone, IH.
Qed.

(** What a listener's trace may hold: calls of its own callback on nodes
    the batch mentions for its selector, and logs of calls that threw. *)
Theorem calls_are_mentions (dom : Dom) (records : list MutationRecord)
    (l : Listener) (e : event) :
  e ∈ (check_listener throws dom records (l, [])).2 →
  match e with
  | Call cb n => cb = callback l ∧ mentions (selector l) n (dom, records)
  | ConsoleError cb n => cb = callback l ∧ throws cb n = true
  end.
Proof.
  set (good := λ e : event,
         match e with
         | Call cb n => cb = callback l ∧ mentions (selector l) n (dom, records)
         | ConsoleError cb n => cb = callback l ∧ throws cb n = true
         end).
  set (I := λ s : st, selector s.1 = selector l ∧ callback s.1 = callback l
                      ∧ ∀ e, e ∈ s.2 → good e).
  assert (HI : I (check_listener throws dom records (l, []))).
  { unfold check_listener. apply (foldl_keep I).
    2: { split; [done|]. split; [done|]. intros e' He'. inversion He'. }
    intros s r Hr Hs. unfold check_record. apply (foldl_keep I).
    { intros [l' tr] x _ (Hsel & Hcb & Hgood). unfold check_removed.
      destruct (removal_fields x (alreadyExistedNodes l') l') as [Hs' Hc'].
      unfold I. cbn [fst snd] in *.
      split; [by rewrite Hs'|]. split; [by rewrite Hc'|done]. }
    apply (foldl_keep I); [|done].
    intros s' a Ha Hs'. unfold check_added.
    destruct (parentNode dom a) as [p|] eqn:Hp; [|done].
    assert (Hpre : ∀ xs, (∀ x, x ∈ xs →
                            x ∈ querySelectorAll dom (Some p) (selector l)) →
                   ∀ s0, I s0 → I (foldl (check_inserted throws) s0 xs)).
    { intros xs Hxs. apply (foldl_keep I).
      intros [l0 tr0] x Hx (Hsel & Hcb & Hgood). unfold check_inserted.
      case_bool_decide; [done|]. simpl in *.
      split; [done|]. split; [done|]. intros e' He'.
      apply elem_of_app in He' as [He'|He']; [by apply Hgood|].
      apply elem_of_cons in He' as [->|He'].
      - simpl. split; [done|]. exists r, a, p. by auto.
      - destruct (throws (callback l0) x) eqn:Hth; [|inversion He'].
        apply list_elem_of_singleton in He' as ->. simpl.
        by rewrite <- Hcb. }
    destruct Hs' as (Hsel & Hrest). rewrite Hsel.
    apply Hpre; [done|]. by split. }
  intros He. by apply HI.
Qed.

End ObserverMore.

(** * Tooltip.hotInitialize *)

Section TooltipFacts.

Import Observer.

Variable throws : nat → node → bool.
Variable init : nat.

Lemma initialize_all_runs (nodes : list node) :
  (∀ m, m ∈ nodes → throws init m = false) →
  Tooltip.initialize_all throws init nodes = (Call init <$> nodes, true).
Proof.
  induction nodes as [|m nodes IH]; intros Hok; simpl; [done|].
  rewrite (Hok m); [|left]. rewrite IH; [done|].
  intros m' Hm'. apply Hok. by right.
Qed.

Lemma fired_direct (n : node) (nodes : list node) :
  NoDup nodes →
  fired n (Call init <$> nodes) = if decide (n ∈ nodes) then 1 else 0.
Proof.
  induction nodes as [|m nodes IH]; intros Hnd.
  - simpl. destruct (decide (n ∈ [])) as [Hin|]; [inversion Hin|done].
  - apply NoDup_cons in Hnd as [Hm Hnd]. rewrite fmap_cons.
    change (Call init m :: (Call init <$> nodes))
      with ([Call init m] ++ (Call init <$> nodes)).
    rewrite fired_app, (IH Hnd). unfold fired at 1.
    rewrite filter_cons. simpl.
    destruct (decide (Some m = Some n)) as [Heq|Hne].
    + injection Heq as ->.
      destruct (decide (n ∈ nodes)); [done|].
      destruct (decide (n ∈ n :: nodes)) as [|Hout]; [done|].
      destruct Hout. left.
    + destruct (decide (n ∈ nodes)) as [Hin|Hout].
      * destruct (decide (n ∈ m :: nodes)) as [|Hout']; [done|].
        destruct Hout'. by right.
      * destruct (decide (n ∈ m :: nodes)) as [Hin'|]; [|done].
        apply elem_of_cons in Hin' as [->|Hin']; [congruence|done].
Qed.

(** hotInitialize and the watcher together initialize a tooltip node once.
    Let the initializer not throw on the nodes that are on the page, and
    let no batch list the node [n] as removed.  Then [n] is initialized at
    most once in all, by the loop or by the watcher, and exactly once if it
    was on the page or a later batch mentions it: the loop does not
    initialize what the watcher will, nor the watcher what the loop has. *)
Theorem hotInitialize_once (dom0 : Dom) (listeners : list Listener)
    (bs : list batch) (n : node) :
  NoDup (querySelectorAll dom0 None Tooltip.selector) →
  (∀ m, m ∈ querySelectorAll dom0 None Tooltip.selector →
        throws init m = false) →
  Forall (keeps n) bs →
  let h := Tooltip.hotInitialize throws init dom0 listeners in
  let tr := h.2.1
            ++ (check_batches throws bs
                  (registered dom0 Tooltip.selector init, [])).2 in
  h.1 = listeners ++ [registered dom0 Tooltip.selector init]
  ∧ h.2.2 = true
  ∧ (fired n tr ≤ 1)%nat
  ∧ (n ∈ querySelectorAll dom0 None Tooltip.selector
     ∨ Exists (mentions Tooltip.selector n) bs →
     fired n tr = 1).
Proof.
  intros Hnd Hok Hkeep h tr. subst h tr. unfold Tooltip.hotInitialize.
  cbn [fst snd]. rewrite (initialize_all_runs _ Hok). cbn [fst snd].
  split; [done|]. split; [done|].
  rewrite fired_app, (fired_direct n _ Hnd).
  pose proof (check_batches_later throws n bs
                (registered dom0 Tooltip.selector init, []) Hkeep)
    as (_ & Hk & Hu).
  unfold known, count in Hk, Hu. cbn [fst snd] in Hk, Hu.
  change (alreadyExistedNodes (registered dom0 Tooltip.selector init))
    with (querySelectorAll dom0 None Tooltip.selector) in Hk, Hu.
  change (fired n []) with 0 in Hk, Hu.
  destruct (decide (n ∈ querySelectorAll dom0 None Tooltip.selector))
    as [Hin|Hout].
  - destruct (Hk Hin) as [_ ->]. split; [lia|done].
  - destruct (Hu Hout) as [[Hnot ->]|[_ ->]].
    + split; [lia|]. intros [Hin|Hex]; [done|].
      destruct Hnot.
      apply (check_batches_known throws n Tooltip.selector bs
               (registered dom0 Tooltip.selector init, []) eq_refl Hex Hkeep).
    + split; [lia|done].
Qed.

End TooltipFacts.

(** The tooltip nodes 4 and 5 of the page [page1], and the later insertion
    [inserted]. *)
Lemma hotInitialize_once_witness :
  NoDup (Observer.querySelectorAll Observer.page1 None Tooltip.selector)
  ∧ (∀ m, m ∈ Observer.querySelectorAll Observer.page1 None Tooltip.selector →
          (λ _ _ : nat, false) 1 m = false)
  ∧ Forall (Observer.keeps 5) [Observer.inserted]
  ∧ (Tooltip.hotInitialize (λ _ _, false) 1 Observer.page1 []).2.2 = true.
Proof.
  assert (Hnd : NoDup (Observer.querySelectorAll Observer.page1 None
                         Tooltip.selector)).
  { apply NoDup_cons. split; [|apply NoDup_singleton].
    intros Hin. apply list_elem_of_singleton in Hin. discriminate. }
  assert (Hok : ∀ m, m ∈ Observer.querySelectorAll Observer.page1 None
                           Tooltip.selector →
                     (λ _ _ : nat, false) 1 m = false) by done.
  assert (Hkeep : Forall (Observer.keeps 5) [Observer.inserted]).
  { repeat constructor; simpl; intros Hin; inversion Hin. }
  split; [exact Hnd|]. split; [exact Hok|]. split; [exact Hkeep|].
  exact (proj1 (proj2 (hotInitialize_once (λ _ _, false) 1 Observer.page1 []
                         [Observer.inserted] 5 Hnd Hok Hkeep))).
Defined.

(** A record that adds and removes the node 5. *)
Lemma check_record_evicts_witness :
  5 ∈ Observer.removedNodes
        {| Observer.addedNodes := [5]; Observer.removedNodes := [5] |}
  ∧ ¬ Observer.known 5
        (Observer.check_record (λ _ _, false) Observer.page1
           (Observer.registered Observer.page0 ".w" 1, [])
           {| Observer.addedNodes := [5]; Observer.removedNodes := [5] |}).
Proof.
  assert (Hin : 5 ∈ Observer.removedNodes
                      {| Observer.addedNodes := [5];
                         Observer.removedNodes := [5] |}) by left.
  split; [exact Hin|].
  exact (check_record_evicts (λ _ _, false) Observer.page1 _ _ 5 Hin).
Defined.

(** The node 5 under the node 0 of [page1], unknown to a fresh listener. *)
Lemma unknown_mention_fires_witness :
  ¬ Observer.known 5 (Observer.registered Observer.page0 ".w" 1, [] : list Observer.event)
  ∧ Observer.parentNode Observer.page1 5 = Some 0
  ∧ 5 ∈ Observer.querySelectorAll Observer.page1 (Some 0) ".w"
  ∧ Observer.count 5
      (Observer.check_added (λ _ _, false) Observer.page1
         (Observer.registered Observer.page0 ".w" 1, [] : list Observer.event) 5) = 1.
Proof.
  assert (Hu : ¬ Observer.known 5
                 (Observer.registered Observer.page0 ".w" 1, [] : list Observer.event)).
  { unfold Observer.known. simpl. intros Hin.
    apply list_elem_of_singleton in Hin. discriminate. }
  assert (Hp : Observer.parentNode Observer.page1 5 = Some 0) by reflexivity.
  assert (Hn : 5 ∈ Observer.querySelectorAll Observer.page1 (Some 0) ".w").
  { right. left. }
  split; [exact Hu|]. split; [exact Hp|]. split; [exact Hn|].
  exact (proj1 (unknown_mention_fires (λ _ _, false) Observer.page1
                  (Observer.registered Observer.page0 ".w" 1, [] : list Observer.event) 5 0 5
                  Hu Hp Hn)).
Defined.

(** A listener that knows the nodes 4 and 5. *)
Lemma check_batches_NoDup_witness :
  NoDup (Observer.alreadyExistedNodes
           (Observer.registered Observer.page1 ".w" 1, [] : list Observer.event).1)
  ∧ NoDup (Observer.alreadyExistedNodes
             (Observer.check_batches (λ _ _, false) [Observer.moved]
                (Observer.registered Observer.page1 ".w" 1, [] : list Observer.event)).1).
Proof.
  assert (Hnd : NoDup (Observer.alreadyExistedNodes
                         (Observer.registered Observer.page1 ".w" 1, [] : list Observer.event).1)).
  { apply NoDup_cons. split; [|apply NoDup_singleton].
    intros Hin. apply list_elem_of_singleton in Hin. discriminate. }
  split; [exact Hnd|].
  exact (check_batches_NoDup (λ _ _, false) [Observer.moved] _ Hnd).
Defined.

(** A batch that adds the node 7, which has no parent on [page1]. *)
Lemma detached_nodes_ignored_witness :
  (∀ r a, r ∈ [ {| Observer.addedNodes := [7];
                   Observer.removedNodes := [] |} ] →
          a ∈ Observer.addedNodes r →
          Observer.parentNode Observer.page1 a = None)
  ∧ (Observer.check (λ _ _, false) Observer.page1
       [ {| Observer.addedNodes := [7]; Observer.removedNodes := [] |} ]
       [Observer.registered Observer.page0 ".w" 1]).2 = [].
Proof.
  assert (Hdet : ∀ r a,
            r ∈ [ {| Observer.addedNodes := [7];
                     Observer.removedNodes := [] |} ] →
            a ∈ Observer.addedNodes r →
            Observer.parentNode Observer.page1 a = None).
  { intros r a Hr Ha. apply list_elem_of_singleton in Hr. subst r.
    apply list_elem_of_singleton in Ha. by subst a. }
  split; [exact Hdet|].
  exact (detached_nodes_ignored (λ _ _, false) Observer.page1 _ _ Hdet).
Defined.

(** The one call the batch [inserted] makes for a fresh listener. *)
Lemma calls_are_mentions_witness :
  Observer.Call 1 5
    ∈ (Observer.check_listener (λ _ _, false) Observer.inserted.1
         Observer.inserted.2
         (Observer.registered Observer.page0 ".w" 1, [])).2
  ∧ Observer.mentions ".w" 5 Observer.inserted.
Proof.
  assert (Hin : Observer.Call 1 5
            ∈ (Observer.check_listener (λ _ _, false) Observer.inserted.1
                 Observer.inserted.2
                 (Observer.registered Observer.page0 ".w" 1, [])).2)
    by left.
  split; [exact Hin|].
  exact (proj2 (calls_are_mentions (λ _ _, false) Observer.inserted.1
                  Observer.inserted.2
                  (Observer.registered Observer.page0 ".w" 1) _ Hin)).
Defined.

(** * More on the REST engine *)

Section ObjectFacts.

Import REST.

(** Reading a property back after writing or deleting one. *)
Lemma get_replace (o : object) (k k' : string) (v : value) :
  get (replace k v o) k'
  = if String.eqb k k' && has o k then v else get o k'.
Proof.
  induction o as [|[k0 v0] o IH]; simpl.
  - by rewrite andb_false_r.
  - destruct (String.eqb_spec k0 k) as [->|Hk0]; simpl.
    + destruct (String.eqb_spec k k') as [->|Hk]; simpl; [done|].
      by destruct (String.eqb_spec k k').
    + destruct (String.eqb_spec k0 k') as [->|Hk0'].
      * destruct (String.eqb_spec k k'); [congruence|done].
      * apply IH.
Qed.

Lemma has_replace (o : object) (k k' : string) (v : value) :
  has (replace k v o) k' = has o k'.
Proof.
  induction o as [|[k0 v0] o IH]; simpl; [done|].
  destruct (String.eqb_spec k0 k) as [->|Hk0]; simpl; [done|].
  by rewrite IH.
Qed.

Lemma get_insert_index (i : N) (o : object) (k k' : string) (v : value) :
  has o k = false →
  get (insert_index i k v o) k' = if String.eqb k k' then v else get o k'.
Proof.
  induction o as [|[k0 v0] o IH]; simpl; intros Hk; [done|].
  apply orb_false_iff in Hk as [Hk0 Hk].
  destruct (array_index k0) as [j|]; [destruct (j <? i)%N|]; simpl; try done.
  rewrite (IH Hk).
  destruct (String.eqb_spec k0 k') as [->|Hk0']; [|done].
  by rewrite String.eqb_sym, Hk0.
Qed.

Lemma has_insert_index (i : N) (o : object) (k k' : string) (v : value) :
  has (insert_index i k v o) k' = String.eqb k k' || has o k'.
Proof.
  induction o as [|[k0 v0] o IH]; simpl; [done|].
  destruct (array_index k0) as [j|]; [destruct (j <? i)%N|]; simpl; try done.
  rewrite IH. by destruct (String.eqb k0 k'), (String.eqb k k').
Qed.

Lemma get_snoc (o : object) (k k' : string) (v : value) :
  has o k = false →
  get (o ++ [(k, v)]) k' = if String.eqb k k' then v else get o k'.
Proof.
  induction o as [|[k0 v0] o IH]; simpl; intros Hk.
  - by destruct (String.eqb k k').
  - apply orb_false_iff in Hk as [Hk0 Hk]. rewrite (IH Hk).
    destruct (String.eqb_spec k0 k') as [->|Hk0']; [|done].
    by rewrite String.eqb_sym, Hk0.
Qed.

Lemma has_snoc (o : object) (k k' : string) (v : value) :
  has (o ++ [(k, v)]) k' = String.eqb k k' || has o k'.
Proof.
  induction o as [|[k0 v0] o IH]; simpl; [by rewrite orb_false_r|].
  rewrite IH. by destruct (String.eqb k0 k'), (String.eqb k k').
Qed.

(** [o[k] = v; o[k']] *)
Lemma get_set (o : object) (k k' : string) (v : value) :
  get (set o k v) k' = if String.eqb k k' then v else get o k'.
Proof.
  unfold set. destruct (has o k) eqn:Hk.
  - rewrite get_replace, Hk. by rewrite andb_true_r.
  - destruct (array_index k); [by apply get_insert_index|by apply get_snoc].
Qed.

Lemma has_set (o : object) (k k' : string) (v : value) :
  has (set o k v) k' = String.eqb k k' || has o k'.
Proof.
  unfold set. destruct (has o k) eqn:Hk.
  - rewrite has_replace. destruct (String.eqb_spec k k') as [<-|]; [|done].
    by rewrite Hk.
  - destruct (array_index k); [apply has_insert_index|apply has_snoc].
Qed.

(** [delete o[k]; o[k']] *)
Lemma get_delete (o : object) (k k' : string) :
  get (REST.delete o k) k' = if String.eqb k k' then VUndef else get o k'.
Proof.
  unfold REST.delete, object. induction o as [|[k0 v0] o IH].
  - simpl. by destruct (String.eqb k k').
  - rewrite filter_cons. destruct (decide _) as [Hne|Heq]; simpl in *.
    + rewrite IH. destruct (String.eqb_spec k0 k') as [->|]; [|done].
      by destruct (String.eqb_spec k k'); [congruence|].
    + apply dec_stable in Heq. subst k0. rewrite IH.
      destruct (String.eqb_spec k k') as [->|Hk]; [done|].
      by destruct (String.eqb_spec k k').
Qed.

Lemma has_delete (o : object) (k k' : string) :
  has (REST.delete o k) k' = negb (String.eqb k k') && has o k'.
Proof.
  unfold REST.delete, object. induction o as [|[k0 v0] o IH].
  - simpl. by rewrite andb_false_r.
  - rewrite filter_cons. destruct (decide _) as [Hne|Heq]; simpl in *.
    + rewrite IH. destruct (String.eqb_spec k0 k') as [->|]; simpl.
      * by destruct (String.eqb_spec k k'); [congruence|].
      * done.
    + apply dec_stable in Heq. subst k0. rewrite IH.
      destruct (String.eqb_spec k k') as [->|Hk]; [done|].
      by destruct (String.eqb_spec k k').
Qed.

End ObjectFacts.

(** * Checkboxes and radio buttons in the assembled object *)

Section CheckboxFacts.

Import REST.

Variable P : Platform.
Variable H : Helpers.








End CheckboxFacts.


Section PrepareFacts.

Import REST.

Variable P : Platform.

(** What [prepare] returns, in one expression: the URL depends on [page]
    alone, the field [show] on [module] alone. *)
Lemma prepare_inv (o : object) method url callback o' :
  result (prepare P o) = inl (method, url, callback, o') →
  ∃ m,
    get o "method" = VStr m
    ∧ method = VStr m
    ∧ url = (if truthy (get o "page") then page_url P (get o "page")
             else location_pathname P)
    ∧ let o1 := if truthy (get o "module")
                then set o "show" (get o "module") else o in
      let o2 := if String.eqb (toLowerCase m) "post"
                then set (set (set o1 "update" (get o1 "module"))
                              "from" (VStr (location_href P)))
                         "mime" (VStr "json")
                else if negb (has o1 "mime") then set o1 "mime" (VStr "txt")
                else o1 in
      callback = get o2 "callback"
      ∧ o' = REST.delete
               (REST.delete (REST.delete (REST.delete o2 "method") "module")
                            "page") "callback".
Proof.
  unfold prepare.
  destruct (get o "method") as [| |b|z|m|g|l|o0] eqn:Hm;
    try (by destruct (truthy (get o "page")), (truthy (get o "module"))).
  intros Hres. exists m. split; [done|].
  destruct (truthy (get o "page")), (truthy (get o "module"));
    simpl in Hres; injection Hres as <- <- <- <-; done.
Qed.

Lemma key_differs (k k0 : string) (ks : list string) :
  k ∉ ks → k0 ∈ ks → String.eqb k0 k = false.
Proof.
  intros Hout Hin. destruct (String.eqb_spec k0 k) as [->|]; [done|done].
Qed.

(** The control fields do not reach the server.  When [prepare] returns,
    the method and the callback it hands on are the step's own fields; the
    object to send has none of [method], [module], [page], [callback]; and
    every field other than these and the stamped [show], [update], [from],
    [mime] is in it as the step had it. *)
Theorem prepare_strips_controls (o : object) method url callback o' :
  result (prepare P o) = inl (method, url, callback, o') →
  method = get o "method"
  ∧ callback = get o "callback"
  ∧ has o' "method" = false ∧ has o' "module" = false
  ∧ has o' "page" = false ∧ has o' "callback" = false
  ∧ ∀ k, k ∉ ["method"; "module"; "page"; "callback";
              "show"; "update"; "from"; "mime"] →
         get o' k = get o k ∧ has o' k = has o k.
Proof.
  intros Hres.
  destruct (prepare_inv o _ _ _ _ Hres) as (m & Hm & -> & _ & Hcb & ->).
  cbn zeta in Hcb.
  split; [done|]. split.
  { rewrite Hcb.
    destruct (String.eqb (toLowerCase m) "post"),
             (truthy (get o "module"));
      try destruct (has _ "mime"); simpl negb; cbn iota;
      by rewrite ?get_set. }
  rewrite !has_delete. cbn [String.eqb Ascii.eqb Bool.eqb negb andb].
  do 4 (split; [done|]).
  intros k Hk.
  assert (Hne : ∀ k0, k0 ∈ ["method"; "module"; "page"; "callback";
                           "show"; "update"; "from"; "mime"] →
                      String.eqb k0 k = false).
  { intros k0. by apply key_differs. }
  rewrite !get_delete, !has_delete.
  rewrite !Hne by (repeat ((by left) || right)).
  cbn [negb andb].
  destruct (String.eqb (toLowerCase m) "post"),
           (truthy (get o "module"));
    try destruct (has _ "mime"); simpl negb; cbn iota;
    rewrite ?get_set, ?has_set;
    rewrite ?Hne by (repeat ((by left) || right)); done.
Qed.

(** Where the request goes and what it shows.  The URL is built from
    [page] if the step has one (kept if it begins with a slash, else
    wrapped as [/page.txt]) and is the path of the current page otherwise;
    the field [show] is the step's [module] if it has one. *)
Theorem prepare_url_and_show (o : object) method url callback o' :
  result (prepare P o) = inl (method, url, callback, o') →
  url = (if truthy (get o "page")
         then if startsWith (str P (get o "page")) "/"
              then str P (get o "page")
              else "/" +:+ str P (get o "page") +:+ ".txt"
         else location_pathname P)
  ∧ get o' "show"
    = if truthy (get o "module") then get o "module" else get o "show".
Proof.
  intros Hres.
  destruct (prepare_inv o _ _ _ _ Hres) as (m & Hm & -> & -> & Hcb & ->).
  split; [done|].
  rewrite !get_delete. cbn [String.eqb Ascii.eqb Bool.eqb].
  destruct (String.eqb (toLowerCase m) "post"),
           (truthy (get o "module"));
    try destruct (has _ "mime"); simpl negb; cbn iota;
    by rewrite ?get_set.
Qed.

(** The stamps.  A POST step is sent with [mime] json, [from] the address
    of the page and [update] the step's [module], whatever it had there;
    any other step keeps its [mime] and gets [txt] if it has none, and its
    [from] and [update] are left alone. *)
Theorem prepare_stamps (o : object) (m : string) url callback o' :
  result (prepare P o) = inl (VStr m, url, callback, o') →
  if String.eqb (toLowerCase m) "post"
  then get o' "mime" = VStr "json"
       ∧ get o' "from" = VStr (location_href P)
       ∧ get o' "update" = get o "module"
  else get o' "mime" = (if has o "mime" then get o "mime" else VStr "txt")
       ∧ get o' "from" = get o "from"
       ∧ get o' "update" = get o "update".
Proof.
  intros Hres.
  destruct (prepare_inv o _ _ _ _ Hres) as (m' & Hm & [= <-] & _ & _ & ->).
  rewrite !get_delete. cbn [String.eqb Ascii.eqb Bool.eqb].
  destruct (String.eqb (toLowerCase m) "post").
  - rewrite !get_set. cbn [String.eqb Ascii.eqb Bool.eqb].
    split; [done|]. split; [done|].
    destruct (truthy (get o "module")); by rewrite ?get_set.
  - destruct (truthy (get o "module")).
    + rewrite has_set. cbn [String.eqb Ascii.eqb Bool.eqb orb].
      destruct (has o "mime"); simpl negb; cbn iota; by rewrite !get_set.
    + destruct (has o "mime"); simpl negb; cbn iota; by rewrite ?get_set.
Qed.

End PrepareFacts.

Section ChainFacts.

Import REST.

Variable P : Platform.

Lemma finish_eq (final : value) :
  finish P final = IO (trace (finish P final)) [] (inl tt).
Proof.
  destruct (finish_returns P final) as [Hr Hp].
  destruct (finish P final) as [tr ps r]. simpl in *. by subst.
Qed.

(** A chain of function values runs every one of them, in the order of
    the list, each under its own guard, then the final callback; it starts
    no request and throws nothing, whichever of the functions throw. *)
Theorem chain_functions_run_in_order (fs : list nat) (final : value) :
  chain P (VArr (VFun <$> fs)) final
  = IO (concat ((λ f, EvCall f [] ::
                      if throws P f []
                      then [EvConsoleError ChainFunction] else []) <$> fs)
        ++ trace (finish P final))
       [] (inl tt).
Proof.
  unfold chain. induction fs as [|f fs IH].
  - simpl. apply finish_eq.
  - rewrite fmap_cons, chain_array_function, try_log_call.
    rewrite (bind_returns _ tt); [|done]. rewrite IH. simpl.
    by rewrite <- app_assoc.
Qed.

(** A step with a [function] field calls the global function of that name
    if there is one, guarded, and calls nothing if there is none; either
    way the chain goes on with the rest of the list. *)
Theorem chain_function_field_continues
    (o : object) (rest : list value) (final : value) :
  has o "function" = true →
  let m := chain P (VArr (VObj o :: rest)) final in
  let k := chain P (VArr rest) final in
  trace m
  = match window P !! str P (get o "function") with
    | Some (VFun g) =>
        EvCall g [] ::
          if throws P g [] then [EvConsoleError ChainFunctionField] else []
    | _ => []
    end ++ trace k
  ∧ pending m = pending k
  ∧ result m = result k.
Proof.
  intros Hf. unfold chain. cbn zeta. rewrite chain_array_object, Hf.
  unfold global_function.
  destruct (window P !! str P (get o "function")) as [[| | | | |g| |]|];
    try (by rewrite (bind_returns _ tt)).
  rewrite try_log_call. by rewrite (bind_returns _ tt).
Qed.

(** A step the chain cannot run ends it with an exception before anything
    is called or sent: [null] or [undefined], a number, a boolean or an
    array, a string that names no global function, an object with neither
    [function] nor [method], and an object whose [method] is [undefined],
    [null], a boolean or a number.  Neither the steps behind it nor the
    final callback are run. *)
Theorem chain_bad_step_aborts (data : value) (rest : list value)
    (final : value) :
  match data with
  | VFun _ => False
  | VStr name => global_function P name = None
  | VObj o =>
      has o "function" = false
      ∧ (has o "method" = false
         ∨ match get o "method" with
           | VUndef | VNull | VBool _ | VNum _ => True
           | _ => False
           end)
  | _ => True
  end →
  ∃ e, chain P (VArr (data :: rest)) final = throw e.
Proof.
  unfold chain. intros Hbad.
  destruct data as [| |b|z|name|f|l|o]; try done;
    try (eexists; by apply chain_array_other).
  - exists TypeError. by rewrite chain_array_string, Hbad.
  - destruct Hbad as [Hf Hm]. rewrite chain_array_object, Hf.
    destruct (has o "method") eqn:Hhas; [|by eexists].
    destruct Hm as [Hm|Hm]; [done|].
    destruct (result (prepare P o)) as [[[[method url] callback] o']|e]
      eqn:Hprep.
    + destruct (prepare_inv P o _ _ _ _ Hprep) as (m & Hget & _).
      by rewrite Hget in Hm.
    + exists e. destruct (prepare_throws P o e Hprep) as [Htr Hpe].
      by rewrite (bind_throws _ e _ Hprep), Htr, Hpe.
Qed.

(** What [chain] takes for a list.  A string that parses to an array runs
    as that array.  A string that does not parse is logged and ends in a
    TypeError with nothing run.  What is neither an array nor a string is
    passed over in silence: no step, no final callback, no exception. *)
Theorem chain_input (s : string) (final : value) :
  (∀ l, JSON_parse P s = Some (VArr l) →
        chain P (VStr s) final = chain P (VArr l) final)
  ∧ (JSON_parse P s = None →
     chain P (VStr s) final
     = IO [EvConsoleError ChainParse] [] (inr TypeError))
  ∧ ∀ raw, match raw with VArr _ | VStr _ => False | _ => True end →
           chain P raw final = IO [] [] (inl tt).
Proof.
  split; [|split].
  - intros l Hl. unfold chain. by rewrite Hl.
  - intros Hnone. unfold chain. by rewrite Hnone.
  - intros raw Hraw. by destruct raw.
Qed.

(** *** The promise handlers *)

Lemma calls_app (f : nat) (tr1 tr2 : list event) :
  calls f (tr1 ++ tr2) = calls f tr1 + calls f tr2.
Proof. unfold calls. by rewrite filter_app, length_app. Qed.

Lemma calls_quiet (f : nat) (tr : list event) :
  Forall quiet tr → calls f tr = 0.
Proof.
  unfold calls. induction 1 as [|e tr He _ IH]; [done|].
  rewrite filter_cons. unfold quiet in He. rewrite He.
  by destruct (decide (None = Some f)).
Qed.

(** Once, whatever happens.  When a fetch settles, however it settles, the
    caller's function is called exactly once and nothing is thrown: with
    the response, or with [null] after a failure of the transport, of the
    parse or of the routing of the response into the page. *)
Theorem settle_calls_once (dataType : value) (data : payload) (f : nat)
    (t : transport) :
  let p := {| p_dataType := dataType; p_data := data;
              p_callbackSuccess := KUser (VFun f) |} in
  let r := received P dataType data t in
  settle P p t
  = IO (r.1 ++ EvCall f [r.2] ::
          if throws P f [r.2] then [EvConsoleError RequestCallback] else [])
       [] (inl tt)
  ∧ calls f (trace (settle P p t)) = 1
  ∧ (r.2 = VNull ∨ ∃ body, t = Resolved body ∧ read_body P dataType body = Some r.2).
Proof.
  cbn zeta. rewrite settle_received. cbn [p_dataType p_data p_callbackSuccess].
  unfold invoke. cbn [completion_is_function is_function run_completion].
  rewrite try_log_call. cbn [trace pending].
  split; [done|]. split.
  - rewrite calls_app, (calls_quiet f _ (received_quiet P dataType data t)).
    unfold calls. rewrite filter_cons. simpl.
    destruct (decide (Some f = Some f)); [|done].
    by destruct (throws P f [(received P dataType data t).2]).
  - unfold received. destruct t as [|body]; [by left|].
    destruct (read_body P dataType body) as [response|] eqn:Hb; [|by left].
    destruct (result (route P data response)); [|by left].
    right. by exists body.
Qed.

(** A response that does not parse is a failed request.  When JSON was
    asked for and the body is not JSON, the handlers do exactly what they
    do when the transport rejects. *)
Theorem unparsable_response_is_rejection (p : inflight) (body : string) :
  p_dataType p = VStr "json" →
  JSON_parse P body = None →
  settle P p (Resolved body) = settle P p Rejected.
Proof.
  intros Hty Hnone. unfold settle, read_body. by rewrite Hty, Hnone.
Qed.

(** A request with form data, end to end.  Without a type, any method but
    POST reads the response as text: the one fetch goes out, and when it
    resolves the caller's function gets the body as it came, once, and
    nothing in the page is touched. *)
Theorem request_form_data_text (m : string) (url body : string)
    (fd : FormData) (f : nat) :
  String.eqb (toLowerCase m) "post" = false →
  run P [Resolved body]
    (request P (VStr m) VNull url (DFormData fd) (KUser (VFun f)))
  = [EvFetch (url +:+ "?" +:+ URLSearchParams_toString fd)
       {| method := "GET"; body := None |};
     EvCall f [VStr body]]
    ++ if throws P f [VStr body] then [EvConsoleError RequestCallback]
       else [].
Proof.
  intros Hget. unfold request, run. simpl. rewrite Hget. simpl.
  unfold invoke. simpl.
  destruct (throws P f [VStr body]); reflexivity.
Qed.

End ChainFacts.

Section FormFacts.

Import REST.

Variable P : Platform.
Variable H : Helpers.

(** One POST.  [formSubmit] on a form sends exactly one request: a POST to
    the form's action, or to the address of the page if it has none, whose
    body ends with the [from] marker and which asks for JSON exactly when
    the first notification region is marked [response_json].  In front of
    the fetch the trace holds nothing but logs of a merge fragment that did
    not parse.  On what is not a form it throws and sends nothing. *)
Theorem formSubmit_posts_once (form : Form) (callback : value) :
  (∃ fd logs,
     Forall (λ e, e = EvConsoleError FormMergeParse) logs
     ∧ formSubmit P H (Some form) callback
       = IO (logs ++
             [EvFetch
                (attr_or (attr_action form) (location_href P) +:+ "?" +:+
                 URLSearchParams_toString
                   (fd ++ [("from", location_href P)]))
                {| method := "POST";
                   body := Some (fd ++ [("from", location_href P)]) |}])
            [ {| p_dataType :=
                   VStr (if bool_decide (head (notifications form)
                                         = Some "response_json")
                         then "json" else "text");
                 p_data := DFormData (fd ++ [("from", location_href P)]);
                 p_callbackSuccess := KForm form callback |} ]
            (inl tt))
  ∧ ∃ e, formSubmit P H None callback = throw e.
Proof.
  split; [|by eexists].
  destruct (formSubmit_fetch P H form callback)
    as (fd & logs & Heq & Hlogs & Htr & Hpe).
  exists fd, logs. split; [done|].
  assert (Hres : result (formSubmit P H (Some form) callback) = inl tt).
  { unfold formSubmit. rewrite Heq. unfold request. simpl.
    by destruct (String.eqb (typeForResponse form) ""). }
  assert (Hty : typeForResponse form
                = if bool_decide (head (notifications form)
                                  = Some "response_json")
                  then "json" else "text").
  { unfold typeForResponse. destruct (notifications form) as [|mode l];
      simpl; [done|].
    destruct (String.eqb_spec mode "response_json") as [->|Hne].
    - by rewrite bool_decide_eq_true_2.
    - rewrite bool_decide_eq_false_2; [done|]. by intros [= ->]. }
  destruct (formSubmit P H (Some form) callback) as [tr ps r].
  simpl in *. unfold fd_append in *. by rewrite Htr, Hpe, Hres, Hty.
Qed.

(** A form without tagged fields is sent as it is: its entries in their
    order, then the marker, and nothing else happens. *)
Theorem formSubmit_untagged (form : Form) (callback : value) :
  jsonFields form = [] →
  trace (formSubmit P H (Some form) callback)
  = [EvFetch
       (attr_or (attr_action form) (location_href P) +:+ "?" +:+
        URLSearchParams_toString
          (form_entries form ++ [("from", location_href P)]))
       {| method := "POST";
          body := Some (form_entries form ++ [("from", location_href P)]) |}].
Proof.
  intros Hnone.
  destruct (formSubmit_fetch P H form callback)
    as (fd & logs & Heq & _ & Htr & _).
  unfold jsonNames in Heq. rewrite Hnone in Heq. simpl in Heq.
  injection Heq as <- <-. by rewrite Htr.
Qed.

(** The names of the objects. *)
Lemma unique_spec (l seen : list string) :
  NoDup (unique seen l)
  ∧ ∀ x, x ∈ unique seen l ↔ x ∈ l ∧ x ∉ seen.
Proof.
  revert seen. induction l as [|y l IH]; intros seen; simpl.
  - split; [constructor|]. intros x. split; [inversion 1|].
    intros [Hx _]. inversion Hx.
  - case_bool_decide as Hy.
    + destruct (IH seen) as [Hnd Hiff]. split; [done|]. intros x.
      rewrite Hiff, elem_of_cons. split; [tauto|].
      intros [[->|Hx] Hout]; [done|tauto].
    + destruct (IH (y :: seen)) as [Hnd Hiff]. split.
      * apply NoDup_cons. split; [|done]. rewrite Hiff.
        intros [_ Hout]. apply Hout. left.
      * intros x. rewrite elem_of_cons, Hiff, !elem_of_cons.
        destruct (decide (x = y)) as [->|Hne]; [tauto|]. tauto.
Qed.

(** Each object is assembled once: the list of object names has no
    duplicates, and a name is in it exactly when it is what stands in
    front of the first dot of some tagged field's path. *)
Theorem jsonNames_spec (form : Form) :
  NoDup (jsonNames form)
  ∧ ∀ name, name ∈ jsonNames form
            ↔ ∃ f, f ∈ jsonFields form ∧ object_name (f_jsonName f) = name.
Proof.
  unfold jsonNames.
  destruct (unique_spec (List.map (λ item, object_name (f_jsonName item))
                                  (jsonFields form)) []) as [Hnd Hiff].
  split; [done|]. intros name. rewrite Hiff.
  rewrite list_elem_of_In, in_map_iff. split.
  - intros [(f & Hf & Hin) _]. exists f. by rewrite list_elem_of_In.
  - intros (f & Hin & Hf). split; [|inversion 1].
    exists f. by rewrite <- list_elem_of_In.
Qed.

Lemma filter_all {A} (Q : A → Prop) `{∀ x, Decision (Q x)} (l : list A) :
  (∀ x, Q x) → filter Q l = l.
Proof.
  intros HQ. induction l as [|x l IH]; [done|].
  rewrite filter_cons. destruct (decide (Q x)) as [|Hn]; [by rewrite IH|].
  by destruct Hn.
Qed.

Lemma foldl_delete_filter (l : list Field) (fd : FormData) :
  foldl (λ fd' f, fd_delete fd' (f_name f)) fd l
  = filter (λ e, e.1 ∉ f_name <$> l) fd.
Proof.
  unfold fd_delete, FormData in *.
  revert fd. induction l as [|f l IH]; intros fd; simpl.
  - symmetry. apply filter_all. intros e. inversion 1.
  - rewrite IH. rewrite list_filter_filter.
    apply list_filter_iff. intros e. rewrite elem_of_cons. split.
    + intros [Hl Hf] [Heq|Hin]; [done|done].
    + intros Hout. split; [|]; intros Hx; apply Hout; [by right|by left].
Qed.

(** What the grouping takes out of the form data: exactly the entries named
    like a field of the group, checked or not; all other entries stay, in
    their order. *)
Theorem collect_all_form_data (form : Form) (fd : FormData)
    (jsonName : string) :
  (collect_all H form fd jsonName).2
  = filter (λ e, e.1 ∉ f_name <$>
                   filter (λ f, json_filter jsonName f = true)
                          (jsonFields form)) fd.
Proof.
  unfold collect_all. rewrite (foldl_collect H). simpl.
  apply foldl_delete_filter.
Qed.

(** The writes of [notify] into regions that hold no json mark. *)
Lemma notify_text (response : value) (modes : list string) (g : nat → nat) :
  Forall (λ mode, mode ≠ "response_json") modes →
  for_each (λ ix : nat * string,
      if String.eqb ix.2 "response_json" then
        msg ← prop response "message";
        emit (EvInnerHTML (Notification ix.1) msg)
      else emit (EvInnerHTML (Notification ix.1) response))
    (imap (λ i x, (g i, x)) modes)
  = IO (imap (λ i _, EvInnerHTML (Notification (g i)) response) modes)
       [] (inl tt).
Proof.
  intros Hm. revert g. induction Hm as [|mode modes Hmode _ IH]; intros g.
  - done.
  - rewrite !imap_cons. cbn [for_each fst snd].
    destruct (String.eqb_spec mode "response_json") as [|_]; [done|].
    rewrite (bind_returns _ tt); [|done].
    change (imap ((λ i x, (g i, x)) ∘ S) modes)
      with (imap (λ i x, ((g ∘ S) i, x)) modes).
    by rewrite (IH (g ∘ S)).
Qed.

(** Without a chain the callback of [formSubmit] is never called.  For a
    form that declares no further chain and whose regions are all text
    regions, the completion writes the response into every region, in
    document order, and does nothing else. *)
Theorem form_completion_without_chain (form : Form) (callback : value)
    (response : value) :
  attr_restapi_form form = None →
  Forall (λ mode, mode ≠ "response_json") (notifications form) →
  run_completion P (KForm form callback) response
  = IO (imap (λ i _, EvInnerHTML (Notification i) response)
             (notifications form))
       [] (inl tt).
Proof.
  intros Hnone Hm. unfold run_completion. rewrite Hnone.
  rewrite bind_ret. unfold notify, for_each_indexed.
  apply (notify_text response (notifications form) (λ i, i) Hm).
Qed.

(** A failed submit and a json region.  When the transport rejects, the
    completion gets [null]; the text regions in front of the first json
    region are written, the json region throws on [null.message], and the
    throw is logged: that region and every region behind it stay as they
    were. *)
Theorem failed_submit_stops_at_json_region (form : Form) (callback : value)
    (dataType : value) (data : payload) (before behind : list string) :
  attr_restapi_form form = None →
  notifications form = before ++ "response_json" :: behind →
  Forall (λ mode, mode ≠ "response_json") before →
  settle P {| p_dataType := dataType; p_data := data;
              p_callbackSuccess := KForm form callback |} Rejected
  = IO (EvConsoleError RequestTransport ::
        imap (λ i _, EvInnerHTML (Notification i) VNull) before
        ++ [EvConsoleError RequestCallback])
       [] (inl tt).
Proof.
  intros Hnone Hsplit Hm. rewrite settle_received.
  cbn [received fst snd p_dataType p_data p_callbackSuccess].
  unfold invoke. cbn [completion_is_function run_completion].
  rewrite Hnone, bind_ret. unfold notify, for_each_indexed. rewrite Hsplit.
  assert (Hgen : ∀ (g : nat → nat) pre,
    Forall (λ mode, mode ≠ "response_json") pre →
    for_each (λ ix : nat * string,
        if String.eqb ix.2 "response_json" then
          msg ← prop VNull "message";
          emit (EvInnerHTML (Notification ix.1) msg)
        else emit (EvInnerHTML (Notification ix.1) VNull))
      (imap (λ i x, (g i, x)) (pre ++ "response_json" :: behind))
    = IO (imap (λ i _, EvInnerHTML (Notification (g i)) VNull) pre)
         [] (inr TypeError)).
  { intros g pre Hpre. revert g.
    induction Hpre as [|mode pre Hmode _ IH]; intros g.
    - simpl app. rewrite imap_cons. cbn [for_each fst snd]. done.
    - simpl app. rewrite !imap_cons. cbn [for_each fst snd].
      destruct (String.eqb_spec mode "response_json") as [|_]; [done|].
      rewrite (bind_returns _ tt); [|done].
      change (imap ((λ i x, (g i, x)) ∘ S) (pre ++ "response_json" :: behind))
        with (imap (λ i x, ((g ∘ S) i, x)) (pre ++ "response_json" :: behind)).
      by rewrite (IH (g ∘ S)). }
  rewrite (Hgen (λ i, i) before Hm). reflexivity.
Qed.

End FormFacts.

Section DataAttrFacts.

Import REST.

Variable P : Platform.

(** [getElementValue] reads the value of an input, else the markup of an
    editable element, else the value of the chosen option of a select,
    else the empty string, in this order of precedence, and leaves no
    trace.  It throws in one case only: a select, neither an input nor
    editable, that has no chosen option. *)
Theorem getElementValue_spec (element : Element) :
  trace (getElementValue element) = []
  ∧ pending (getElementValue element) = []
  ∧ (String.eqb (el_nodeName element) "INPUT" = true →
     result (getElementValue element) = inl (el_value element))
  ∧ ((∃ e, result (getElementValue element) = inr e)
     ↔ String.eqb (el_nodeName element) "INPUT" = false
       ∧ el_contenteditable element = false
       ∧ String.eqb (el_nodeName element) "SELECT" = true
       ∧ el_selected element = None).
Proof.
  unfold getElementValue.
  destruct (String.eqb (el_nodeName element) "INPUT"),
           (el_contenteditable element),
           (String.eqb (el_nodeName element) "SELECT"),
           (el_selected element); simpl;
    (split; [done|]); (split; [done|]); (split; [done|]);
    (split; [intros [e He]; try discriminate; done
            |intros (? & ? & ? & ?); try discriminate; by eexists]).
Qed.

(** What [dataAttr] refuses, before anything runs: an element without the
    attribute, an attribute that does not parse or does not hold an array,
    and a value that is neither an element nor an array. *)
Theorem dataAttr_rejects (object : dataAttr_arg) (finalCallback : value) :
  match object with
  | AnElement e =>
      match el_restapi_attr e with
      | None => True
      | Some a =>
          match JSON_parse P a with
          | Some (VArr _) => False
          | _ => True
          end
      end
  | AValue (VArr _) => False
  | AValue _ => True
  end →
  ∃ e, dataAttr P object finalCallback = throw e.
Proof.
  unfold dataAttr. destruct object as [e|v].
  - destruct (el_restapi_attr e) as [a|]; [|by eexists].
    destruct (JSON_parse P a) as [[| |b|z|s|f|l|o]|]; try done;
      by eexists.
  - destruct v; try done; by eexists.
Qed.

(** Function steps do not pass through [dataAttr].  An array is copied
    through JSON before it is run, which turns a function into [null]; so
    an array whose first step is a function ends in a TypeError with
    nothing called, where [chain] would have called the function. *)
Theorem dataAttr_drops_functions (f : nat) (rest : list value)
    (finalCallback : value) :
  dataAttr P (AValue (VArr (VFun f :: rest))) finalCallback = throw TypeError
  ∧ calls f (trace (chain P (VArr (VFun f :: rest)) finalCallback)) ≥ 1.
Proof.
  split; [done|]. unfold chain.
  rewrite chain_array_function, try_log_call.
  rewrite (bind_returns _ tt); [|done]. cbn [trace].
  rewrite calls_app. unfold calls at 1. rewrite filter_cons. simpl.
  destruct (decide (Some f = Some f)); [|done]. simpl. lia.
Qed.

(** A delay needs an element.  [dataAttr] on an array whose first step
    has a delay ends in a TypeError with nothing run and no timer set: the
    timer is keyed by the element, and there is none. *)
Theorem dataAttr_array_delay (o o' : object) (rest : list value)
    (finalCallback : value) :
  json_clone (VObj o) = VObj o' →
  truthy (get o' "delay") = true →
  dataAttr P (AValue (VArr (VObj o :: rest))) finalCallback = throw TypeError.
Proof.
  intros Hclone Hdelay. unfold dataAttr.
  change (json_clone (VArr (VObj o :: rest)))
    with (VArr (json_clone (VObj o) :: List.map json_clone rest)).
  rewrite Hclone. cbn -[truthy]. rewrite Hdelay. reflexivity.
Qed.

(** A delayed step on an element.  The call sets the timer and runs
    nothing: no step, no request, no final callback.  The steps are kept
    as they were parsed; the value of the element is read again and put
    into the first step when the timer fires. *)
Theorem dataAttr_delays (e : Element) (a : string) (o : object)
    (rest : list value) (finalCallback current : value) :
  el_restapi_attr e = Some a →
  JSON_parse P a = Some (VArr (VObj o :: rest)) →
  truthy (get o "delay") = true →
  result (element_value (Some e)) = inl current →
  dataAttr P (AnElement e) finalCallback
  = IO ((if el_has_id e then [] else [EvAssignId])
        ++ [EvSetTimeout (get o "delay")])
       []
       (inl (Some {| t_chain := VObj o :: rest;
                     t_finalCallback := finalCallback;
                     t_delay := get o "delay" |})).
Proof.
  intros Ha Hparse Hdelay Hvalue. unfold dataAttr.
  rewrite Ha, Hparse.
  assert (Hev : element_value (Some e) = IO [] [] (inl current)).
  { revert Hvalue. unfold element_value.
    destruct (named (Some e)) as [e'|]; [|by intros [= <-]].
    destruct (getElementValue_spec e') as (Htr & Hpe & _).
    destruct (getElementValue e') as [tr ps [v|err]]; simpl in *;
      [|done]. subst. by intros [= <-]. }
  cbn -[truthy element_value]. rewrite Hev. cbn -[truthy].
  rewrite Hdelay. by destruct (el_has_id e).
Qed.

(** An input sends its value.  [dataAttr] on a named input whose first
    step is an object without a delay runs the chain with the input's
    current value put into the first step under the input's name. *)
Theorem dataAttr_seeds_input (e : Element) (a : string) (o : object)
    (rest : list value) (finalCallback : value) :
  el_restapi_attr e = Some a →
  JSON_parse P a = Some (VArr (VObj o :: rest)) →
  truthy (get o "delay") = false →
  String.eqb (el_nodeName e) "INPUT" = true →
  String.eqb (el_name e) "" = false →
  let m := dataAttr P (AnElement e) finalCallback in
  let k := chain P (VArr (VObj (set o (el_name e) (VStr (el_value e)))
                          :: rest)) finalCallback in
  trace m = trace k ∧ pending m = pending k
  ∧ result m = match result k with inl _ => inl None | inr err => inr err end.
Proof.
  intros Ha Hparse Hdelay Hinput Hname. cbn zeta. unfold dataAttr, chain.
  rewrite Ha, Hparse.
  assert (Hev : element_value (Some e)
                = IO [] [] (inl (VStr (el_value e)))).
  { unfold element_value, named, getElementValue.
    by rewrite Hname, Hinput. }
  assert (Hseed : ∀ v, seed (VObj o :: rest) (Some e) v
                       = IO [] [] (inl (VObj (set o (el_name e) v) :: rest))).
  { intros v. unfold seed, named. by rewrite Hname. }
  cbn -[truthy element_value seed chain_array set]. rewrite Hev.
  cbn -[truthy element_value seed chain_array set]. rewrite Hdelay, Hseed.
  cbn -[chain_array set].
  destruct (chain_array P _ finalCallback) as [tr ps [[]|err]]; simpl;
    by rewrite ?app_nil_r.
Qed.

End DataAttrFacts.

(** * The select *)

Section SelectFacts.

Import Select.

Variable has_changed : bool.
Variable throws : string → string → bool.

Lemma hideOption_lookup (v : option string) (os : list Option) (j : nat) :
  hideOption v os !! j
  = (λ o, if bool_decide (Some (optionValue o) = v)
          then show o "none" else show o "block") <$> os !! j.
Proof. unfold hideOption. rewrite <- list_lookup_fmap. done. Qed.

(** After a choice.  A click on an option closes the select, makes the
    option's value the value of the select and its caption the title, and
    leaves hidden exactly the options that carry the chosen value, the
    clicked one among them; every other option is shown.  The [changed]
    callback, if there is one, is called once with the new title and
    value. *)
Theorem click_option_spec (i : nat) (s : Select) (o : Option) :
  options s !! i = Some o →
  let s' := (click_option has_changed throws i s).1 in
  active s' = false
  ∧ disabled s' = disabled s
  ∧ value s' = Some (optionValue o)
  ∧ title s' = REST.attr_or (data_caption o) (textContent o)
  ∧ length (options s') = length (options s)
  ∧ (∀ j o', options s' !! j = Some o' →
       optionValue o' = optionValue o ∧ display o' = "none"
       ∨ optionValue o' ≠ optionValue o ∧ display o' = "block")
  ∧ (∃ o', options s' !! i = Some o' ∧ display o' = "none")
  ∧ (click_option has_changed throws i s).2
    = if has_changed
      then Changed (REST.attr_or (data_caption o) (textContent o))
                   (optionValue o)
           :: if throws (REST.attr_or (data_caption o) (textContent o))
                        (optionValue o)
              then [ConsoleError] else []
      else [].
Proof.
  intros Hi. unfold click_option. rewrite Hi. cbn [fst snd].
  cbn [active disabled value title options].
  do 4 (split; [done|]).
  split; [unfold hideOption; by rewrite length_map|].
  split; [|split; [|done]].
  - intros j o' Hj. rewrite hideOption_lookup in Hj.
    destruct (options s !! j) as [oj|]; [|done].
    simpl in Hj. injection Hj as <-.
    case_bool_decide as Hv.
    + left. injection Hv as Hv. by split.
    + right. split; [|done]. intros Heq. apply Hv. f_equal. exact Heq.
  - rewrite hideOption_lookup, Hi. simpl.
    rewrite bool_decide_eq_true_2; [|done]. by eexists.
Qed.

End SelectFacts.

(** * The extra properties at concrete inputs *)

Lemma prepare_strips_controls_witness :
  REST.result (REST.prepare REST.browser REST.ping)
  = inl (REST.VStr "GET", "/page", REST.VFun 3, [("mime", REST.VStr "txt")])
  ∧ REST.VFun 3 = REST.get REST.ping "callback".
Proof.
  assert (Hp : REST.result (REST.prepare REST.browser REST.ping)
               = inl (REST.VStr "GET", "/page", REST.VFun 3,
                      [("mime", REST.VStr "txt")])) by reflexivity.
  split; [exact Hp|].
  exact (proj1 (proj2 (prepare_strips_controls REST.browser REST.ping
                         _ _ _ _ Hp))).
Defined.

Lemma prepare_url_and_show_witness :
  REST.result (REST.prepare REST.browser REST.ping)
  = inl (REST.VStr "GET", "/page", REST.VFun 3, [("mime", REST.VStr "txt")])
  ∧ REST.get [("mime", REST.VStr "txt")] "show" = REST.VUndef.
Proof.
  assert (Hp : REST.result (REST.prepare REST.browser REST.ping)
               = inl (REST.VStr "GET", "/page", REST.VFun 3,
                      [("mime", REST.VStr "txt")])) by reflexivity.
  split; [exact Hp|].
  exact (proj2 (prepare_url_and_show REST.browser REST.ping _ _ _ _ Hp)).
Defined.

Lemma prepare_stamps_witness :
  REST.result (REST.prepare REST.browser REST.ping)
  = inl (REST.VStr "GET", "/page", REST.VFun 3, [("mime", REST.VStr "txt")])
  ∧ REST.get [("mime", REST.VStr "txt")] "mime" = REST.VStr "txt".
Proof.
  assert (Hp : REST.result (REST.prepare REST.browser REST.ping)
               = inl (REST.VStr "GET", "/page", REST.VFun 3,
                      [("mime", REST.VStr "txt")])) by reflexivity.
  split; [exact Hp|].
  exact (proj1 (prepare_stamps REST.browser REST.ping "GET" _ _ _ Hp)).
Defined.

Lemma chain_function_field_continues_witness :
  REST.has [("function", REST.VStr "test")] "function" = true
  ∧ REST.pending
      (REST.chain REST.browser
         (REST.VArr [REST.VObj [("function", REST.VStr "test")]])
         (REST.VFun 5))
    = REST.pending (REST.chain REST.browser (REST.VArr []) (REST.VFun 5)).
Proof.
  assert (Hf : REST.has [("function", REST.VStr "test")] "function" = true)
    by reflexivity.
  split; [exact Hf|].
  exact (proj1 (proj2 (chain_function_field_continues REST.browser
                         [("function", REST.VStr "test")] []
                         (REST.VFun 5) Hf))).
Defined.

Lemma chain_bad_step_aborts_witness :
  True
  ∧ ∃ e, REST.chain REST.browser
           (REST.VArr [REST.VNum 5; REST.VFun 1]) (REST.VFun 2)
         = REST.throw e.
Proof.
  split; [exact I|].
  exact (chain_bad_step_aborts REST.browser (REST.VNum 5) [REST.VFun 1]
           (REST.VFun 2) I).
Defined.

Lemma unparsable_response_is_rejection_witness :
  REST.VStr "json" = REST.VStr "json"
  ∧ REST.JSON_parse REST.browser "<html>" = None
  ∧ REST.settle REST.browser
      {| REST.p_dataType := REST.VStr "json";
         REST.p_data := REST.DFormData [];
         REST.p_callbackSuccess := REST.KUser (REST.VFun 1) |}
      (REST.Resolved "<html>")
    = REST.settle REST.browser
        {| REST.p_dataType := REST.VStr "json";
           REST.p_data := REST.DFormData [];
           REST.p_callbackSuccess := REST.KUser (REST.VFun 1) |}
        REST.Rejected.
Proof.
  split; [reflexivity|]. split; [reflexivity|].
  exact (unparsable_response_is_rejection REST.browser
           {| REST.p_dataType := REST.VStr "json";
              REST.p_data := REST.DFormData [];
              REST.p_callbackSuccess := REST.KUser (REST.VFun 1) |}
           "<html>" eq_refl eq_refl).
Defined.

Lemma request_form_data_text_witness :
  String.eqb (REST.toLowerCase "GET") "post" = false
  ∧ REST.run REST.browser [REST.Resolved "ok"]
      (REST.request REST.browser (REST.VStr "GET") REST.VNull "/api"
         (REST.DFormData [("a", "1")]) (REST.KUser (REST.VFun 1)))
    = [REST.EvFetch "/api?a=1" {| REST.method := "GET"; REST.body := None |};
       REST.EvCall 1 [REST.VStr "ok"]].
Proof.
  assert (Hget : String.eqb (REST.toLowerCase "GET") "post" = false)
    by reflexivity.
  split; [exact Hget|].
  exact (request_form_data_text REST.browser "GET" "/api" "ok"
           [("a", "1")] 1 Hget).
Defined.

Lemma formSubmit_untagged_witness :
  REST.jsonFields REST.notice_form = []
  ∧ REST.trace (REST.formSubmit REST.browser REST.idle
                  (Some REST.notice_form) REST.VNull)
    = [REST.EvFetch "/send?q=1&from=http%3A%2F%2Ffaze%2Fpage"
         {| REST.method := "POST";
            REST.body := Some [("q", "1"); ("from", "http://faze/page")] |}].
Proof.
  assert (Hnone : REST.jsonFields REST.notice_form = []) by reflexivity.
  split; [exact Hnone|].
  exact (formSubmit_untagged REST.browser REST.idle REST.notice_form
           REST.VNull Hnone).
Defined.

Lemma form_completion_without_chain_witness :
  REST.attr_restapi_form REST.notice_form = None
  ∧ Forall (λ mode, mode ≠ "response_json")
           (REST.notifications REST.notice_form)
  ∧ REST.run_completion REST.browser (REST.KForm REST.notice_form (REST.VFun 1))
      (REST.VStr "done")
    = REST.IO [REST.EvInnerHTML (REST.Notification 0) (REST.VStr "done")]
              [] (inl tt).
Proof.
  assert (Hnone : REST.attr_restapi_form REST.notice_form = None)
    by reflexivity.
  assert (Hm : Forall (λ mode, mode ≠ "response_json")
                      (REST.notifications REST.notice_form)).
  { repeat constructor. discriminate. }
  split; [exact Hnone|]. split; [exact Hm|].
  exact (form_completion_without_chain REST.browser REST.notice_form
           (REST.VFun 1) (REST.VStr "done") Hnone Hm).
Defined.

Lemma failed_submit_stops_at_json_region_witness :
  REST.attr_restapi_form REST.two_regions = None
  ∧ REST.notifications REST.two_regions = ["text"] ++ "response_json" :: []
  ∧ Forall (λ mode, mode ≠ "response_json") ["text"]
  ∧ REST.settle REST.browser
      {| REST.p_dataType := REST.VStr "text";
         REST.p_data := REST.DFormData [];
         REST.p_callbackSuccess :=
           REST.KForm REST.two_regions (REST.VFun 1) |}
      REST.Rejected
    = REST.IO [REST.EvConsoleError REST.RequestTransport;
               REST.EvInnerHTML (REST.Notification 0) REST.VNull;
               REST.EvConsoleError REST.RequestCallback]
              [] (inl tt).
Proof.
  assert (Hnone : REST.attr_restapi_form REST.two_regions = None)
    by reflexivity.
  assert (Hsplit : REST.notifications REST.two_regions
                   = ["text"] ++ "response_json" :: []) by reflexivity.
  assert (Hm : Forall (λ mode, mode ≠ "response_json") ["text"]).
  { repeat constructor. discriminate. }
  split; [exact Hnone|]. split; [exact Hsplit|]. split; [exact Hm|].
  exact (failed_submit_stops_at_json_region REST.browser REST.two_regions
           (REST.VFun 1) (REST.VStr "text") (REST.DFormData [])
           ["text"] [] Hnone Hsplit Hm).
Defined.

Lemma dataAttr_rejects_witness :
  True
  ∧ ∃ e, REST.dataAttr REST.browser (REST.AValue (REST.VNum 1)) (REST.VFun 2)
         = REST.throw e.
Proof.
  split; [exact I|].
  exact (dataAttr_rejects REST.browser (REST.AValue (REST.VNum 1))
           (REST.VFun 2) I).
Defined.

Lemma dataAttr_array_delay_witness :
  REST.json_clone (REST.VObj [("delay", REST.VNum 300)])
  = REST.VObj [("delay", REST.VNum 300)]
  ∧ REST.truthy (REST.get [("delay", REST.VNum 300)] "delay") = true
  ∧ REST.dataAttr REST.browser
      (REST.AValue (REST.VArr [REST.VObj [("delay", REST.VNum 300)]]))
      (REST.VFun 2)
    = REST.throw REST.TypeError.
Proof.
  split; [reflexivity|]. split; [reflexivity|].
  exact (dataAttr_array_delay REST.browser [("delay", REST.VNum 300)]
           [("delay", REST.VNum 300)] [] (REST.VFun 2) eq_refl eq_refl).
Defined.

Lemma dataAttr_delays_witness :
  let parse := λ _ : string,
    Some (REST.VArr [REST.VObj [("method", REST.VStr "GET");
                                ("delay", REST.VNum 300)]]) in
  REST.el_restapi_attr REST.search = Some "steps"
  ∧ REST.truthy (REST.VNum 300) = true
  ∧ REST.trace (REST.dataAttr (REST.parsing parse)
                  (REST.AnElement REST.search) (REST.VFun 2))
    = [REST.EvAssignId; REST.EvSetTimeout (REST.VNum 300)].
Proof.
  intros parse. split; [reflexivity|]. split; [reflexivity|].
  exact (f_equal REST.trace
           (dataAttr_delays (REST.parsing parse) REST.search "steps"
              [("method", REST.VStr "GET"); ("delay", REST.VNum 300)] []
              (REST.VFun 2) (REST.VStr "tea")
              eq_refl eq_refl eq_refl eq_refl)).
Defined.

Lemma dataAttr_seeds_input_witness :
  let parse := λ _ : string,
    Some (REST.VArr [REST.VObj [("method", REST.VStr "GET")]]) in
  REST.el_restapi_attr REST.search = Some "steps"
  ∧ String.eqb (REST.el_nodeName REST.search) "INPUT" = true
  ∧ String.eqb (REST.el_name REST.search) "" = false
  ∧ REST.trace (REST.dataAttr (REST.parsing parse)
                  (REST.AnElement REST.search) (REST.VFun 2))
    = REST.trace
        (REST.chain (REST.parsing parse)
           (REST.VArr [REST.VObj [("method", REST.VStr "GET");
                                  ("q", REST.VStr "tea")]])
           (REST.VFun 2)).
Proof.
  intros parse. split; [reflexivity|]. split; [reflexivity|].
  split; [reflexivity|].
  exact (proj1 (dataAttr_seeds_input (REST.parsing parse) REST.search "steps"
                  [("method", REST.VStr "GET")] [] (REST.VFun 2)
                  eq_refl eq_refl eq_refl eq_refl eq_refl)).
Defined.

Lemma click_option_spec_witness :
  Select.options Select.colours !! 1
  = Some {| Select.data_caption := None; Select.data_value := None;
            Select.textContent := "Blue"; Select.display := "block" |}
  ∧ Select.value (Select.click_option true (λ _ _, false) 1
                    Select.colours).1
    = Some "Blue".
Proof.
  split; [reflexivity|].
  exact (proj1 (proj2 (proj2 (click_option_spec true (λ _ _, false) 1
                                Select.colours _ eq_refl)))).
Defined.
